(** * BLEU scoring (eval/bleu.py): a shallow embedding and its properties

    The three static methods of class [BLEU] are embedded as functions:
    [compute], [modified_precision] and [brevity_penalty].

    Conventions of the embedding.
    - Python integers are [Z]; [len] and [list.count] are read through
      [Z.of_nat].
    - A token is a Python [str], kept as its UTF-8 bytes (two tokens are
      equal exactly when their encodings are).  [str.lower] and [str.upper]
      are the members of the class [CaseMapping]: any pair of functions that
      act on ASCII strings as the ASCII case mappings do and that send
      sharp s to itself and to "SS".
    - The quotient of two integers under [from __future__ import division]
      is kept as the exact rational ([Q]); [math.exp], [math.log] and the
      float arithmetic of [compute] and [brevity_penalty] are read over the
      real numbers ([R]), without rounding.  [brevity_penalty_double] is
      [brevity_penalty] read in binary64 instead: every operation is
      followed by a rounding and [math.exp] may underflow to 0.  With
      weights that are not negative the argument of [math.exp] is never
      positive, so its [OverflowError] does not arise.
    - A raised exception is a value of [exn]; a call either returns [Ok v]
      or [Raise e].
    - The order in which a Python [set] is iterated is not fixed by the
      language; it is an arbitrary member of the class [HashOrder]. *)

From Stdlib Require Import String Ascii List Bool Arith ZArith QArith Lia.
From Stdlib Require Import Reals Qreals Lra.
Import ListNotations.

Close Scope Q_scope.
Close Scope R_scope.

Set Implicit Arguments.

(** ** The Python runtime the code relies on *)

Module Py.

Inductive exn : Type :=
| ZeroDivisionError
| ValueError
| UnboundLocalError.

Inductive result (A : Type) : Type :=
| Ok (a : A)
| Raise (e : exn).

Arguments Ok {A} a.
Arguments Raise {A} e.

Definition bind {A B : Type} (m : result A) (k : A -> result B) : result B :=
  match m with
  | Ok a => k a
  | Raise e => Raise e
  end.

(** [str.lower] / [str.upper] on an ASCII character, and on a string of
    them. *)
Definition lower_char (ch : ascii) : ascii :=
  let k := nat_of_ascii ch in
  if (65 <=? k)%nat && (k <=? 90)%nat then ascii_of_nat (k + 32) else ch.

Definition upper_char (ch : ascii) : ascii :=
  let k := nat_of_ascii ch in
  if (97 <=? k)%nat && (k <=? 122)%nat then ascii_of_nat (k - 32) else ch.

Fixpoint ascii_lower (s : string) : string :=
  match s with
  | EmptyString => EmptyString
  | String ch rest => String (lower_char ch) (ascii_lower rest)
  end.

Fixpoint ascii_upper (s : string) : string :=
  match s with
  | EmptyString => EmptyString
  | String ch rest => String (upper_char ch) (ascii_upper rest)
  end.

(** The strings whose bytes are all below 128. *)
Definition is_ascii_char (ch : ascii) : bool := (nat_of_ascii ch <? 128)%nat.

Fixpoint is_ascii (s : string) : bool :=
  match s with
  | EmptyString => true
  | String ch rest => is_ascii_char ch && is_ascii rest
  end.

(** [len(l)] *)
Definition len {A : Type} (l : list A) : Z := Z.of_nat (length l).

(** [min(l)] of an iterable of integers: [ValueError] on an empty one. *)
Definition min (l : list Z) : result Z :=
  match l with
  | [] => Raise ValueError
  | x :: rest => Ok (fold_left Z.min rest x)
  end.

(** [a / b] on integers with true division. *)
Definition true_div (a b : Z) : result Q :=
  if (b =? 0)%Z then Raise ZeroDivisionError
  else Ok (inject_Z a / inject_Z b)%Q.

End Py.

Import Py.

Notation "x <- m ;; k" := (bind m (fun x => k))
  (at level 61, m at next level, right associativity).

(** ** Tokens and n-grams *)

Definition token : Type := string.

(** An n-gram is the tuple of [n] consecutive tokens. *)
Definition ngram : Type := list token.

Definition ngram_eq_dec : forall a b : ngram, {a = b} + {a <> b} :=
  list_eq_dec string_dec.

(** U+00DF, LATIN SMALL LETTER SHARP S, in UTF-8. *)
Definition sharp_s : token :=
  String (ascii_of_nat 195) (String (ascii_of_nat 159) EmptyString).

(** [str.lower] and [str.upper]: on ASCII strings the ASCII mappings; the
    lower case of sharp s is itself and its upper case is "SS". *)
Class CaseMapping : Type := {
  lower : token -> token;
  upper : token -> token;
  lower_ascii : forall s, is_ascii s = true -> lower s = ascii_lower s;
  upper_ascii : forall s, is_ascii s = true -> upper s = ascii_upper s;
  lower_sharp_s : lower sharp_s = sharp_s;
  upper_sharp_s : upper sharp_s = "SS"%string
}.

(** One such pair: the ASCII mappings and sharp s, any other string being
    left alone. *)
Definition ascii_case : CaseMapping.
Proof.
  refine {|
    lower := fun s => if is_ascii s then ascii_lower s else s;
    upper := fun s => if is_ascii s then ascii_upper s
                      else if string_dec s sharp_s then "SS"%string else s
  |}.
  - intros s H. now rewrite H.
  - intros s H. now rewrite H.
  - reflexivity.
  - reflexivity.
Defined.

(** [l.count(w)] on a list of n-grams. *)
Definition count (l : list ngram) (w : ngram) : Z :=
  Z.of_nat (count_occ ngram_eq_dec l w).

(** Modelled from the spec: [nltk.util.ngrams] is imported by the module and
    not part of the repository.  Section 4.1: the ordered list of the windows
    of [n] tokens starting at positions [0 .. L-n]; empty when [L < n]. *)
Definition ngrams (sequence : list token) (n : nat) : list ngram :=
  List.map (fun i => firstn n (skipn i sequence))
           (seq 0 (length sequence + 1 - n)).

(** The iteration order of [set(l)]: some enumeration, without repetition,
    of the elements of [l]. *)
Class HashOrder : Type := {
  set_iter : list ngram -> list ngram;
  set_iter_NoDup : forall l, NoDup (set_iter l);
  set_iter_In : forall l w, In w (set_iter l) <-> In w l
}.

(** One such order: each n-gram at the place of its last occurrence. *)
Definition last_seen : HashOrder := {|
  set_iter := nodup ngram_eq_dec;
  set_iter_NoDup := NoDup_nodup ngram_eq_dec;
  set_iter_In := fun l w => nodup_In ngram_eq_dec l w
|}.

(** Another one: each n-gram at the place of its first occurrence. *)
Definition first_seen : HashOrder := {|
  set_iter := fun l => rev (nodup ngram_eq_dec (rev l));
  set_iter_NoDup := fun l => NoDup_rev (NoDup_nodup ngram_eq_dec (rev l));
  set_iter_In := fun l w =>
    iff_trans (iff_sym (in_rev (nodup ngram_eq_dec (rev l)) w))
      (iff_trans (nodup_In ngram_eq_dec (rev l) w) (iff_sym (in_rev l w)))
|}.

(** ** The class BLEU *)

Module BLEU.
Section WithOrder.

Context {order : HashOrder} {case : CaseMapping}.

(** Lines 124-130: the loop over the references, for one [word]. *)
Definition for_reference (n : nat) (word : ngram)
           (count_max : Z) (reference : list token) : Z :=
  let reference_ngrams := ngrams reference n in
  let count := (count reference_ngrams word + 1)%Z in
  if (count >? count_max)%Z then count else count_max.

(** Lines 121-130: the loop over [c_words].  Its state is the pair
    [(count_w, count_max)], unbound before the first iteration and
    assigned afresh by each one. *)
Definition for_word (candidate_ngrams : list ngram)
           (references : list (list token)) (n : nat)
           (st : option (Z * Z)) (word : ngram) : option (Z * Z) :=
  let count_w := (count candidate_ngrams word + 1)%Z in
  let count_max := fold_left (for_reference n word) references 0%Z in
  Some (count_w, count_max).

Definition modified_precision (candidate : list token)
           (references : list (list token)) (n : nat) : result Q :=
  let candidate_ngrams := ngrams candidate n in
  if (len candidate_ngrams =? 0)%Z then Ok 0%Q
  else
    let c_words := set_iter candidate_ngrams in
    match fold_left (for_word candidate_ngrams references n) c_words None with
    | None => Raise UnboundLocalError
    | Some (count_w, count_max) =>
        true_div (Z.min count_w count_max) (len candidate + len c_words)
    end.

Definition brevity_penalty (candidate : list token)
           (references : list (list token)) : result R :=
  let c := len candidate in
  let lengthes_ref := List.map (fun x => Z.abs (len x - c)) references in
  r <- Py.min lengthes_ref ;;
  if (c >? r)%Z then Ok 1%R
  else
    q <- true_div r c ;;
    Ok (exp (1 - Q2R q))%R.

(** Lines 101-107: the loop over [weights], with the running sum [s] and
    the order [i]. *)
Fixpoint for_weight (candidate : list token) (references : list (list token))
         (weights : list R) (s : R) (i : nat) : result R :=
  match weights with
  | [] => Ok s
  | weight :: rest =>
      p_n <- modified_precision candidate references i ;;
      let s := if Qeq_bool p_n 0 then s else (s + weight * ln (Q2R p_n))%R in
      for_weight candidate references rest s (S i)
  end.

Definition compute (candidate : list token) (references : list (list token))
           (weights : list R) : result R :=
  let candidate := List.map lower candidate in
  let references := List.map (List.map lower) references in
  bp <- brevity_penalty candidate references ;;
  s <- for_weight candidate references weights 0%R 1 ;;
  Ok (bp * exp s)%R.

End WithOrder.

(** Binary64 arithmetic: [rnd] rounds an exact result to the nearest
    double and [fexp] is [math.exp] on a double. *)
Record FloatOps : Type := {
  rnd : R -> R;
  fexp : R -> R
}.

(** What is used of them: rounding is monotone and leaves the integers up
    to 2^53 alone; [math.exp] is never negative, is at most 1 on a
    non-positive argument, and underflows to 0 from -746 down. *)
Record Binary64 (F : FloatOps) : Prop := {
  rnd_monotone : forall x y, (x <= y)%R -> (rnd F x <= rnd F y)%R;
  rnd_integer : forall z, (Z.abs z <= 2 ^ 53)%Z -> rnd F (IZR z) = IZR z;
  fexp_nonneg : forall x, (0 <= fexp F x)%R;
  fexp_le_1 : forall x, (x <= 0)%R -> (fexp F x <= 1)%R;
  fexp_underflow : forall x, (x <= -746)%R -> fexp F x = 0%R
}.

(** Lines 134-145 in binary64: [r / c] is rounded, then [1 - r/c], and
    [math.exp] is applied to the result. *)
Definition brevity_penalty_double (F : FloatOps) (candidate : list token)
           (references : list (list token)) : result R :=
  let c := len candidate in
  let lengthes_ref := List.map (fun x => Z.abs (len x - c)) references in
  r <- Py.min lengthes_ref ;;
  if (c >? r)%Z then Ok 1%R
  else
    q <- true_div r c ;;
    Ok (fexp F (rnd F (1 - rnd F (Q2R q))))%R.

(** Arithmetic without rounding, and a binary64 that rounds nothing but
    lets [math.exp] underflow. *)
Definition exact_arith : FloatOps := {| rnd := fun x => x; fexp := exp |}.

Definition flushing : FloatOps := {|
  rnd := fun x => x;
  fexp := fun x => if Rle_dec x (-746) then 0%R else exp x
|}.

End BLEU.

Import BLEU.

Open Scope string_scope.

(** ** What the specification names *)

Section Spec.

Context {order : HashOrder}.

(** Section 4.2, step 3a. *)
Definition candidate_count (candidate : list token) (n : nat) (w : ngram) : Z :=
  (count (ngrams candidate n) w + 1)%Z.

(** Section 4.2, step 3b. *)
Definition max_ref_count (references : list (list token)) (n : nat)
           (w : ngram) : Z :=
  fold_right Z.max 0%Z
             (List.map (fun reference => (count (ngrams reference n) w + 1)%Z)
                       references).

(** The distinct candidate n-grams in the order they are visited, and the
    one visited last. *)
Definition distinct_ngrams (candidate : list token) (n : nat) : list ngram :=
  set_iter (ngrams candidate n).

Definition last_visited (candidate : list token) (n : nat) : ngram :=
  last (distinct_ngrams candidate n) [].

(** Section 4.3, step 2: the distances of the reference lengths to [c]. *)
Definition length_distances (candidate : list token)
           (references : list (list token)) : list Z :=
  List.map (fun x => Z.abs (len x - len candidate)) references.

(** Section 4.4, step 3: the orders [1 .. N] whose precision is not zero,
    and the sum of [weights[i-1] * ln p_i] over them. *)
Definition nonzero_orders (p : nat -> Q) (N : nat) : list nat :=
  filter (fun i => negb (Qeq_bool (p i) 0)) (seq 1 N).

Definition log_sum (p : nat -> Q) (weights : list R) : R :=
  fold_right Rplus 0%R
    (List.map (fun i => (nth (i - 1) weights 0 * ln (Q2R (p i)))%R)
              (nonzero_orders p (length weights))).

(** The precision of order [i], as a number. *)
Definition precision (candidate : list token) (references : list (list token))
           (i : nat) : Q :=
  match modified_precision candidate references i with
  | Ok p => p
  | Raise _ => 0%Q
  end.

End Spec.

(** ** The definitions on small inputs *)

Example ngrams_bigrams :
  ngrams ["it"; "is"; "a"; "guide"] 2
  = [["it"; "is"]; ["is"; "a"]; ["a"; "guide"]].
Proof. reflexivity. Qed.

Example ngrams_too_short : ngrams ["it"; "is"] 3 = [].
Proof. reflexivity. Qed.

Example lower_token :
  ascii_lower "Party's" = "party's" /\ ascii_upper "Party's" = "PARTY'S".
Proof. split; reflexivity. Qed.

Example sharp_s_case :
  @lower ascii_case sharp_s = sharp_s /\ @upper ascii_case sharp_s = "SS"
  /\ @lower ascii_case "SS" = "ss".
Proof. repeat split; reflexivity. Qed.

Example min_of_three : Py.min [3; 1; 2]%Z = Ok 1%Z /\ Py.min [] = Raise ValueError.
Proof. split; reflexivity. Qed.

(** Candidate "cat the the the" against "the cat" and "the the mat", order
    1, the set visited as [cat, the]: [count_w] is 3 + 1, [count_max] is
    2 + 1, and the value is 3 / (4 + 2). *)
Example modified_precision_unigrams :
  modified_precision (order := last_seen) ["cat"; "the"; "the"; "the"]
                     [["the"; "cat"]; ["the"; "the"; "mat"]] 1
  = Ok (inject_Z 3 / inject_Z 6)%Q.
Proof. reflexivity. Qed.

(** ** Lists, n-grams and iteration order *)

Lemma length_ngrams (s : list token) (n : nat) :
  length (ngrams s n) = length s + 1 - n.
Proof. unfold ngrams. now rewrite length_map, length_seq. Qed.

Lemma ngrams_nil_iff (s : list token) (n : nat) :
  ngrams s n = [] <-> length s < n.
Proof.
  rewrite <- length_zero_iff_nil, length_ngrams. lia.
Qed.

(** Each window has [n] tokens. *)
Lemma ngrams_window_length (s : list token) (n : nat) (w : ngram) :
  In w (ngrams s n) -> length w = n.
Proof.
  unfold ngrams. rewrite in_map_iff. intros (i & <- & Hi).
  apply in_seq in Hi. rewrite length_firstn, length_skipn. lia.
Qed.

Lemma count_le_length (l : list ngram) (w : ngram) :
  (0 <= count l w <= len l)%Z.
Proof.
  unfold count, len. pose proof (count_occ_bound ngram_eq_dec w l). lia.
Qed.

Lemma count_In (l : list ngram) (w : ngram) :
  In w l -> (1 <= count l w)%Z.
Proof.
  intro H. unfold count.
  apply (count_occ_In ngram_eq_dec) in H. lia.
Qed.

Section OrderFacts.

Context {order : HashOrder}.

Lemma set_iter_nonempty (l : list ngram) :
  l <> [] -> set_iter l <> [].
Proof.
  destruct l as [|w l]; [congruence|]. intros _ E.
  assert (H : In w (set_iter (w :: l))) by (apply set_iter_In; now left).
  rewrite E in H. exact H.
Qed.

Lemma last_In (A : Type) (l : list A) (d : A) : l <> [] -> In (last l d) l.
Proof.
  induction l as [|a [|b l] IH]; intro H; [congruence|now left|].
  right. apply IH. congruence.
Qed.

Lemma last_visited_In (candidate : list token) (n : nat) :
  n <= length candidate ->
  In (last_visited candidate n) (ngrams candidate n).
Proof.
  intro H. unfold last_visited, distinct_ngrams.
  apply set_iter_In, last_In, set_iter_nonempty.
  rewrite ngrams_nil_iff. lia.
Qed.

Lemma length_set_iter_le (l : list ngram) :
  length (set_iter l) <= length l.
Proof.
  apply NoDup_incl_length; [apply set_iter_NoDup|].
  intros w. apply set_iter_In.
Qed.

Lemma length_set_iter_pos (l : list ngram) :
  l <> [] -> 1 <= length (set_iter l).
Proof.
  intro H. apply set_iter_nonempty in H.
  destruct (set_iter l); [congruence|simpl; lia].
Qed.

End OrderFacts.

(** ** The two loops of [modified_precision] *)

Lemma for_reference_max (n : nat) (word : ngram) (count_max : Z)
      (reference : list token) :
  for_reference n word count_max reference
  = Z.max count_max (count (ngrams reference n) word + 1).
Proof.
  unfold for_reference.
  destruct (Z.gtb_spec (count (ngrams reference n) word + 1) count_max); lia.
Qed.

Lemma fold_for_reference (n : nat) (word : ngram) (references : list (list token)) :
  fold_left (for_reference n word) references 0%Z = max_ref_count references n word.
Proof.
  unfold max_ref_count.
  rewrite <- fold_symmetric by (intros; lia).
  generalize 0%Z.
  induction references as [|r rs IH]; intro a; simpl; [reflexivity|].
  now rewrite for_reference_max, IH.
Qed.

Lemma fold_for_word (cn : list ngram) (references : list (list token)) (n : nat)
      (words : list ngram) (st : option (Z * Z)) :
  words <> [] ->
  fold_left (for_word cn references n) words st
  = Some ((count cn (last words []) + 1)%Z,
          max_ref_count references n (last words [])).
Proof.
  revert st. induction words as [|w [|w' ws] IH]; intros st H; [congruence| |].
  - simpl. unfold for_word. now rewrite fold_for_reference.
  - change (fold_left (for_word cn references n) (w :: w' :: ws) st)
      with (fold_left (for_word cn references n) (w' :: ws)
                      (for_word cn references n st w)).
    rewrite IH by congruence. reflexivity.
  Qed.

(** ** [modified_precision] *)

Section ModifiedPrecision.

Context {order : HashOrder}.

(** The value returned once the candidate has an n-gram of order [n]. *)
Lemma modified_precision_eq (candidate : list token)
      (references : list (list token)) (n : nat) :
  n <= length candidate ->
  modified_precision candidate references n
  = Ok (inject_Z (Z.min (candidate_count candidate n (last_visited candidate n))
                        (max_ref_count references n (last_visited candidate n)))
        / inject_Z (len candidate + len (distinct_ngrams candidate n)))%Q.
Proof.
  intro Hn. unfold modified_precision.
  assert (Hne : ngrams candidate n <> []) by (rewrite ngrams_nil_iff; lia).
  destruct (Z.eqb_spec (len (ngrams candidate n)) 0) as [E|_].
  { exfalso. unfold len in E. apply Hne, length_zero_iff_nil. lia. }
  rewrite fold_for_word by now apply set_iter_nonempty.
  unfold true_div.
  destruct (Z.eqb_spec (len candidate + len (set_iter (ngrams candidate n))) 0)
    as [E|_].
  { exfalso. pose proof (length_set_iter_pos Hne). unfold len in E. lia. }
  reflexivity.
Qed.

Lemma max_ref_count_pos (references : list (list token)) (n : nat) (w : ngram) :
  references <> [] -> (1 <= max_ref_count references n w)%Z.
Proof.
  destruct references as [|r rs]; [congruence|]. intros _.
  unfold max_ref_count. simpl.
  pose proof (count_le_length (ngrams r n) w). lia.
Qed.

End ModifiedPrecision.

(** ** The largest reference count *)

Lemma max_ref_count_nonneg (references : list (list token)) (n : nat) (w : ngram) :
  (0 <= max_ref_count references n w)%Z.
Proof.
  unfold max_ref_count. induction references as [|r rs IH]; simpl; lia.
Qed.

Lemma max_ref_count_ge (references : list (list token)) (n : nat) (w : ngram)
      (r : list token) :
  In r references ->
  (count (ngrams r n) w + 1 <= max_ref_count references n w)%Z.
Proof.
  unfold max_ref_count.
  induction references as [|r' rs IH]; [intros []|].
  intros [E|H]; simpl.
  - subst r'. lia.
  - specialize (IH H). lia.
Qed.

Lemma max_ref_count_le (references : list (list token)) (n : nat) (w : ngram)
      (m : Z) :
  (0 <= m)%Z ->
  (forall r, In r references -> (count (ngrams r n) w + 1 <= m)%Z) ->
  (max_ref_count references n w <= m)%Z.
Proof.
  intros Hm. unfold max_ref_count.
  induction references as [|r rs IH]; intro H; simpl; [exact Hm|].
  assert (H1 := H r (or_introl eq_refl)).
  assert (H2 : (fold_right Z.max 0
                  (List.map (fun reference => count (ngrams reference n) w + 1)
                            rs) <= m)%Z).
  { apply IH. intros r' Hr'. apply H. now right. }
  lia.
Qed.

Lemma max_ref_count_incl (refs refs' : list (list token)) (n : nat) (w : ngram) :
  incl refs refs' ->
  (max_ref_count refs n w <= max_ref_count refs' n w)%Z.
Proof.
  intro Hincl. apply max_ref_count_le; [apply max_ref_count_nonneg|].
  intros r Hr. apply max_ref_count_ge, Hincl, Hr.
Qed.

(** ** Claims about [modified_precision] *)

(** C1. For a candidate with at least [n] tokens, [n >= 1], and a non-empty
    collection of references, [modified_precision] returns
    [min (count w + 1) (max over the references of (count of w + 1))]
    divided by [len candidate + D], where [D] is the number of distinct
    candidate n-grams and [w] is the one distinct n-gram visited last; no
    other distinct n-gram enters the numerator. *)
Theorem modified_precision_last_ngram
        (order : HashOrder) (candidate : list token)
        (references : list (list token)) (n : nat) :
  1 <= n -> n <= length candidate -> references <> [] ->
  let w := last (set_iter (ngrams candidate n)) [] in
  let D := len (set_iter (ngrams candidate n)) in
  modified_precision candidate references n
  = Ok (inject_Z (Z.min (count (ngrams candidate n) w + 1)
                        (max_ref_count references n w))
        / inject_Z (len candidate + D))%Q.
Proof.
  intros _ Hn _ w D. now rewrite modified_precision_eq.
Qed.

Lemma modified_precision_last_ngram_witness :
  modified_precision (order := last_seen) ["b"; "a"; "b"] [["a"]; ["b"; "b"; "b"]] 1
  = Ok (inject_Z 3 / inject_Z 5)%Q.
Proof.
  apply (@modified_precision_last_ngram last_seen ["b"; "a"; "b"]
           [["a"]; ["b"; "b"; "b"]] 1); simpl; [lia | lia | discriminate].
Defined.

(** C8. When the candidate has fewer than [n] tokens, [n >= 1],
    [modified_precision] returns exactly 0 and raises nothing. *)
Theorem modified_precision_short_candidate
        (order : HashOrder) (candidate : list token)
        (references : list (list token)) (n : nat) :
  1 <= n -> length candidate < n ->
  modified_precision candidate references n = Ok 0%Q.
Proof.
  intros _ H. unfold modified_precision.
  apply ngrams_nil_iff in H. now rewrite H.
Qed.

Lemma modified_precision_short_candidate_witness :
  modified_precision (order := last_seen) ["a"; "b"] [["a"; "b"; "c"]] 3 = Ok 0%Q.
Proof.
  apply (@modified_precision_short_candidate last_seen ["a"; "b"]
           [["a"; "b"; "c"]] 3); simpl; lia.
Defined.

(** C9. For a candidate with at least [n] tokens, [n >= 1], and a non-empty
    collection of references, the loop of [modified_precision] ends with
    [count_w >= 2] and [count_max >= 1]; the numerator
    [min count_w count_max] is at least 1 and at most
    [len candidate - n + 2], the denominator [len candidate + D] is at
    least [len candidate + 1], and the value [p] returned has
    [0 < p <= 1]. *)
Theorem modified_precision_range
        (order : HashOrder) (candidate : list token)
        (references : list (list token)) (n : nat) :
  1 <= n -> n <= length candidate -> references <> [] ->
  let c_words := set_iter (ngrams candidate n) in
  let w := last c_words [] in
  let count_w := (count (ngrams candidate n) w + 1)%Z in
  let count_max := max_ref_count references n w in
  let D := len c_words in
  fold_left (for_word (ngrams candidate n) references n) c_words None
  = Some (count_w, count_max)
  /\ modified_precision candidate references n
     = Ok (inject_Z (Z.min count_w count_max) / inject_Z (len candidate + D))%Q
  /\ (2 <= count_w)%Z /\ (1 <= count_max)%Z
  /\ (1 <= Z.min count_w count_max <= len candidate - Z.of_nat n + 2)%Z
  /\ (len candidate + 1 <= len candidate + D)%Z
  /\ (0 < inject_Z (Z.min count_w count_max) / inject_Z (len candidate + D))%Q
  /\ (inject_Z (Z.min count_w count_max) / inject_Z (len candidate + D) <= 1)%Q.
Proof.
  intros Hn1 Hn Hrefs c_words w count_w count_max D.
  assert (Hne : ngrams candidate n <> []) by (rewrite ngrams_nil_iff; lia).
  pose proof (last_visited_In candidate Hn) as Hin.
  unfold last_visited, distinct_ngrams in Hin. fold c_words in Hin. fold w in Hin.
  pose proof (count_In _ _ Hin) as Hc1.
  pose proof (count_le_length (ngrams candidate n) w) as Hc2.
  pose proof (max_ref_count_pos n w Hrefs) as Hm. fold count_max in Hm.
  pose proof (length_set_iter_pos Hne) as HD.
  unfold len in Hc2. rewrite length_ngrams in Hc2.
  assert (Hcw : (2 <= count_w <= Z.of_nat (length candidate) - Z.of_nat n + 2)%Z)
    by (unfold count_w; lia).
  assert (HDpos : (1 <= D)%Z) by (unfold D, c_words, len; lia).
  assert (Hlen : len candidate = Z.of_nat (length candidate)) by reflexivity.
  split.
  { unfold c_words. rewrite fold_for_word by now apply set_iter_nonempty.
    reflexivity. }
  split; [apply (modified_precision_eq candidate references Hn)|].
  repeat split; try lia.
  - apply Qlt_shift_div_l.
    + rewrite <- (Zlt_Qlt 0). lia.
    + rewrite Qmult_0_l, <- (Zlt_Qlt 0). lia.
  - apply Qle_shift_div_r.
    + rewrite <- (Zlt_Qlt 0). lia.
    + rewrite Qmult_1_l, <- Zle_Qle. lia.
Qed.

Lemma modified_precision_range_witness :
  fold_left (for_word (ngrams ["b"; "a"; "b"] 1) [["a"]; ["b"; "b"]] 1)
            (@set_iter last_seen (ngrams ["b"; "a"; "b"] 1)) None
  = Some (3, 3)%Z
  /\ modified_precision (order := last_seen) ["b"; "a"; "b"] [["a"]; ["b"; "b"]] 1
     = Ok (inject_Z (Z.min 3 3) / inject_Z (len ["b"; "a"; "b"] + 2))%Q
  /\ (2 <= 3)%Z /\ (1 <= 3)%Z
  /\ (1 <= Z.min 3 3 <= len ["b"; "a"; "b"] - Z.of_nat 1 + 2)%Z
  /\ (len ["b"; "a"; "b"] + 1 <= len ["b"; "a"; "b"] + 2)%Z
  /\ (0 < inject_Z (Z.min 3 3) / inject_Z (len ["b"; "a"; "b"] + 2))%Q
  /\ (inject_Z (Z.min 3 3) / inject_Z (len ["b"; "a"; "b"] + 2) <= 1)%Q.
Proof.
  apply (@modified_precision_range last_seen ["b"; "a"; "b"]
           [["a"]; ["b"; "b"]] 1);
    simpl; [lia | lia | discriminate].
Defined.

(** ** [brevity_penalty] *)

Lemma fold_left_min_spec (l : list Z) (x : Z) :
  (fold_left Z.min l x = x \/ In (fold_left Z.min l x) l)
  /\ (fold_left Z.min l x <= x)%Z
  /\ (forall y, In y l -> (fold_left Z.min l x <= y)%Z).
Proof.
  revert x. induction l as [|a l IH]; intro x; simpl.
  - repeat split; [now left | lia | tauto].
  - destruct (IH (Z.min x a)) as (Hin & Hle & Hall).
    repeat split.
    + destruct Hin as [E|Hin]; [|now right; right].
      rewrite E. destruct (Z.min_spec x a) as [[_ ->]|[_ ->]]; [now left|].
      right. now left.
    + lia.
    + intros y [<-|Hy]; [lia|now apply Hall].
Qed.

(** [min] of a non-empty list returns its least element. *)
Lemma min_nonempty (l : list Z) :
  l <> [] ->
  exists r, Py.min l = Ok r /\ In r l /\ forall d, In d l -> (r <= d)%Z.
Proof.
  destruct l as [|x l]; [congruence|]. intros _.
  destruct (fold_left_min_spec l x) as (Hin & Hle & Hall).
  exists (fold_left Z.min l x). repeat split.
  - destruct Hin as [-> | Hin]; [now left|now right].
  - intros d [<-|Hd]; [exact Hle|now apply Hall].
Qed.

Lemma length_distances_nonneg (candidate : list token)
      (references : list (list token)) (d : Z) :
  In d (length_distances candidate references) -> (0 <= d)%Z.
Proof.
  unfold length_distances. rewrite in_map_iff.
  intros (x & <- & _). apply Z.abs_nonneg.
Qed.

Lemma Q2R_inject_Z (z : Z) : Q2R (inject_Z z) = IZR z.
Proof. unfold Q2R, inject_Z. simpl. lra. Qed.

Lemma Q2R_true_div (a b : Z) :
  b <> 0%Z -> Q2R (inject_Z a / inject_Z b) = (IZR a / IZR b)%R.
Proof.
  intro Hb. rewrite Q2R_div, !Q2R_inject_Z; [reflexivity|].
  intro E. apply Hb. unfold Qeq in E. simpl in E. lia.
Qed.

Lemma exp_nonpos_le_1 (x : R) : (x <= 0)%R -> (exp x <= 1)%R.
Proof.
  intros [H | ->]; [|rewrite exp_0; lra].
  apply exp_increasing in H. rewrite exp_0 in H. lra.
Qed.

Lemma length_distances_nonempty (candidate : list token)
      (references : list (list token)) :
  references <> [] -> length_distances candidate references <> [].
Proof.
  unfold length_distances. destruct references; [congruence|discriminate].
Qed.

Lemma len_pos (A : Type) (l : list A) : l <> [] -> (0 < len l)%Z.
Proof. unfold len. destruct l; [congruence|simpl; lia]. Qed.

(** The branch taken once [min] has returned [r]. *)
Lemma brevity_penalty_branch
      (candidate : list token) (references : list (list token)) (r : Z) :
  candidate <> [] ->
  Py.min (length_distances candidate references) = Ok r ->
  brevity_penalty candidate references
  = Ok (if (len candidate >? r)%Z then 1%R
        else exp (1 - IZR r / IZR (len candidate))).
Proof.
  intros Hc Hmin. apply len_pos in Hc.
  unfold brevity_penalty. fold (length_distances candidate references).
  rewrite Hmin. cbn [bind].
  destruct (len candidate >? r)%Z; [reflexivity|].
  unfold true_div.
  destruct (Z.eqb_spec (len candidate) 0) as [E|Hne]; [lia|]. cbn [bind].
  now rewrite Q2R_true_div.
Qed.

(** The penalty exists and is positive. *)
Lemma brevity_penalty_positive
      (candidate : list token) (references : list (list token)) :
  candidate <> [] -> references <> [] ->
  exists bp, brevity_penalty candidate references = Ok bp /\ (0 < bp)%R.
Proof.
  intros Hc Hrefs.
  destruct (min_nonempty (length_distances_nonempty candidate Hrefs))
    as (r & Hmin & _).
  rewrite (brevity_penalty_branch references Hc Hmin).
  eexists. split; [reflexivity|].
  destruct (len candidate >? r)%Z; [lra|apply exp_pos].
Qed.

(** ** [brevity_penalty] in binary64 *)

(** Without rounding, [brevity_penalty_double] is [brevity_penalty]. *)
Lemma brevity_penalty_double_exact
      (candidate : list token) (references : list (list token)) :
  brevity_penalty_double exact_arith candidate references
  = brevity_penalty candidate references.
Proof. reflexivity. Qed.

Lemma flushing_binary64 : Binary64 flushing.
Proof.
  constructor; cbn [rnd fexp flushing].
  - intros x y H. exact H.
  - intros z _. reflexivity.
  - intro x. destruct (Rle_dec x (-746)); [lra|]. left. apply exp_pos.
  - intros x Hx. destruct (Rle_dec x (-746)); [lra|].
    now apply exp_nonpos_le_1.
  - intros x Hx. destruct (Rle_dec x (-746)); [reflexivity|contradiction].
Qed.

(** The branch taken in binary64 once [min] has returned [r]. *)
Lemma brevity_penalty_double_branch (F : FloatOps)
      (candidate : list token) (references : list (list token)) (r : Z) :
  candidate <> [] ->
  Py.min (length_distances candidate references) = Ok r ->
  brevity_penalty_double F candidate references
  = Ok (if (len candidate >? r)%Z then 1%R
        else fexp F (rnd F (1 - rnd F (IZR r / IZR (len candidate))))).
Proof.
  intros Hc Hmin. apply len_pos in Hc.
  unfold brevity_penalty_double. fold (length_distances candidate references).
  rewrite Hmin. cbn [bind].
  destruct (len candidate >? r)%Z; [reflexivity|].
  unfold true_div.
  destruct (Z.eqb_spec (len candidate) 0) as [E|Hne]; [lia|]. cbn [bind].
  now rewrite Q2R_true_div.
Qed.

(** A candidate of one token against a reference of 800: [c = 1],
    [r = 799], and [math.exp (1 - 799)] underflows; the value returned is
    0, which is not in (0, 1]. *)
Lemma brevity_penalty_underflow :
  (forall F : FloatOps,
      Binary64 F ->
      brevity_penalty_double F ["a"] [repeat "a" 800] = Ok 0%R)
  /\ ~ (0 < 0 <= 1)%R.
Proof.
  split; [|lra]. intros F HF.
  assert (Hmin : Py.min (length_distances ["a"] [repeat "a" 800]) = Ok 799%Z)
    by (vm_compute; reflexivity).
  rewrite (@brevity_penalty_double_branch F ["a"] [repeat "a" 800] 799%Z);
    [|discriminate|exact Hmin].
  change (len ["a"]) with 1%Z. change (1 >? 799)%Z with false. cbv iota.
  f_equal.
  replace (IZR 799 / IZR 1)%R with (IZR 799) by lra.
  rewrite (rnd_integer HF 799) by (vm_compute; discriminate).
  replace (1 - IZR 799)%R with (IZR (-798)) by lra.
  rewrite (rnd_integer HF (-798)) by (vm_compute; discriminate).
  apply (fexp_underflow HF). lra.
Qed.

(** C4, as the code has it.  For a non-empty candidate of length [c] and
    non-empty references, [brevity_penalty] returns 1 when [c > r] and
    [math.exp (1 - r/c)], computed in binary64, otherwise, where [r] is the
    least of the distances [|len reference - c|]; the value returned lies
    in [0, 1]. *)
Theorem brevity_penalty_value
        (F : FloatOps) (candidate : list token) (references : list (list token)) :
  Binary64 F -> candidate <> [] -> references <> [] ->
  exists (r : Z) (v : R),
    In r (length_distances candidate references)
    /\ (forall d, In d (length_distances candidate references) -> (r <= d)%Z)
    /\ brevity_penalty_double F candidate references = Ok v
    /\ ((len candidate > r)%Z -> v = 1%R)
    /\ ((len candidate <= r)%Z ->
        v = fexp F (rnd F (1 - rnd F (IZR r / IZR (len candidate)))))
    /\ (0 <= v <= 1)%R.
Proof.
  intros HF Hc Hrefs.
  destruct (min_nonempty (length_distances_nonempty candidate Hrefs))
    as (r & Hmin & Hin & Hleast).
  pose proof (len_pos Hc) as Hcpos.
  exists r. eexists.
  split; [exact Hin|]. split; [exact Hleast|].
  split; [apply (brevity_penalty_double_branch F references Hc Hmin)|].
  destruct (Z.gtb_spec (len candidate) r) as [Hgt|Hle].
  - repeat split; try lra. intro. lia.
  - repeat split.
    + intro. lia.
    + apply (fexp_nonneg HF).
    + apply (fexp_le_1 HF).
      assert (H0 : (0 < IZR (len candidate))%R) by now apply IZR_lt.
      assert (H1 : (IZR (len candidate) <= IZR r)%R) by now apply IZR_le.
      assert (H2 : (1 <= IZR r / IZR (len candidate))%R).
      { unfold Rdiv. apply (Rmult_le_reg_r (IZR (len candidate))); [exact H0|].
        rewrite Rmult_assoc, Rinv_l by lra. lra. }
      apply (rnd_monotone HF) in H2.
      rewrite (rnd_integer HF 1) in H2 by (vm_compute; discriminate).
      assert (H3 : (1 - rnd F (IZR r / IZR (len candidate)) <= 0)%R) by lra.
      apply (rnd_monotone HF) in H3.
      rewrite (rnd_integer HF 0) in H3 by (vm_compute; discriminate).
      exact H3.
Qed.

Lemma brevity_penalty_value_witness :
  exists (r : Z) (v : R),
    In r (length_distances ["a"] [["a"; "b"; "c"; "d"]; ["a"; "b"; "c"]])
    /\ (forall d, In d (length_distances ["a"]
                          [["a"; "b"; "c"; "d"]; ["a"; "b"; "c"]])
                  -> (r <= d)%Z)
    /\ brevity_penalty_double flushing ["a"]
                              [["a"; "b"; "c"; "d"]; ["a"; "b"; "c"]] = Ok v
    /\ ((len ["a"] > r)%Z -> v = 1%R)
    /\ ((len ["a"] <= r)%Z ->
        v = fexp flushing (rnd flushing (1 - rnd flushing (IZR r / IZR (len ["a"])))))
    /\ (0 <= v <= 1)%R.
Proof.
  apply (@brevity_penalty_value flushing ["a"]
           [["a"; "b"; "c"; "d"]; ["a"; "b"; "c"]]);
    [exact flushing_binary64 | discriminate | discriminate].
Defined.

(** With an empty candidate the quotient [r / c] divides by zero. *)
Lemma brevity_penalty_empty_candidate (references : list (list token)) :
  references <> [] ->
  brevity_penalty [] references = Raise ZeroDivisionError.
Proof.
  intro Hrefs.
  destruct (min_nonempty (length_distances_nonempty [] Hrefs))
    as (r & Hmin & Hin & _).
  apply length_distances_nonneg in Hin.
  unfold brevity_penalty. fold (length_distances [] references).
  rewrite Hmin. simpl.
  destruct (Z.gtb_spec (len (@nil token)) r) as [Hgt|_].
  - unfold len in Hgt. simpl in Hgt. lia.
  - reflexivity.
Qed.

(** C5. For non-empty references, [brevity_penalty] on an empty candidate,
    and hence [compute] on an empty candidate, signals the division by zero
    and returns no score. *)
Theorem empty_candidate_fails
        (order : HashOrder) (case : CaseMapping) (references : list (list token)) (weights : list R) :
  references <> [] ->
  brevity_penalty [] references = Raise ZeroDivisionError
  /\ compute [] references weights = Raise ZeroDivisionError.
Proof.
  intro Hrefs. split; [now apply brevity_penalty_empty_candidate|].
  unfold compute. simpl List.map at 1.
  rewrite brevity_penalty_empty_candidate; [reflexivity|].
  destruct references; [congruence|discriminate].
Qed.

Lemma empty_candidate_fails_witness :
  brevity_penalty [] [["a"; "b"]] = Raise ZeroDivisionError
  /\ compute (order := last_seen) (case := ascii_case) [] [["a"; "b"]] [1%R] = Raise ZeroDivisionError.
Proof.
  apply (@empty_candidate_fails last_seen ascii_case [["a"; "b"]] [1%R]). discriminate.
Defined.

(** C10. With an empty collection of references, [brevity_penalty] fails
    for every candidate, the minimum being taken over nothing; and so does
    [compute]. *)
Theorem empty_references_fail
        (order : HashOrder) (case : CaseMapping) (candidate : list token) (weights : list R) :
  brevity_penalty candidate [] = Raise ValueError
  /\ compute candidate [] weights = Raise ValueError.
Proof. split; reflexivity. Qed.

(** ** [compute] *)

Section Compute.

Context {order : HashOrder} {case : CaseMapping}.

(** [modified_precision] raises nothing, whatever the order. *)
Lemma modified_precision_total (candidate : list token)
      (references : list (list token)) (n : nat) :
  modified_precision candidate references n
  = Ok (precision candidate references n).
Proof.
  unfold precision.
  destruct (le_lt_dec n (length candidate)) as [H|H].
  - now rewrite modified_precision_eq.
  - apply ngrams_nil_iff in H. unfold modified_precision. now rewrite H.
Qed.

(** The loop over the weights from order [i] on, against the sum of the
    terms of the non-zero orders. *)
Lemma for_weight_sum (candidate : list token) (references : list (list token))
      (weights : list R) (s : R) (i : nat) :
  for_weight candidate references weights s i
  = Ok (s + fold_right Rplus 0
              (List.map (fun j => nth (j - i) weights 0
                                  * ln (Q2R (precision candidate references j)))
                 (filter (fun j => negb (Qeq_bool
                                           (precision candidate references j) 0))
                         (seq i (length weights)))))%R.
Proof.
  revert s i. induction weights as [|weight rest IH]; intros s i.
  - simpl. f_equal. lra.
  - cbn [for_weight]. rewrite modified_precision_total. cbn [bind].
    rewrite IH. f_equal.
    cbn [length seq filter].
    assert (Hext : List.map (fun j => (nth (j - i) (weight :: rest) 0
                      * ln (Q2R (precision candidate references j)))%R)
               (filter (fun j => negb (Qeq_bool
                                         (precision candidate references j) 0))
                       (seq (S i) (length rest)))
             = List.map (fun j => (nth (j - S i) rest 0
                      * ln (Q2R (precision candidate references j)))%R)
               (filter (fun j => negb (Qeq_bool
                                         (precision candidate references j) 0))
                       (seq (S i) (length rest)))).
    { apply map_ext_in. intros j Hj.
      apply filter_In in Hj. destruct Hj as [Hj _].
      apply in_seq in Hj.
      replace (j - i) with (S (j - S i)) by lia. reflexivity. }
    destruct (Qeq_bool (precision candidate references i) 0); cbn [negb].
    + rewrite Hext. reflexivity.
    + cbn [List.map fold_right]. rewrite Hext, Nat.sub_diag. cbn [nth]. lra.
Qed.

(** The shape of the score. *)
Lemma compute_eq (candidate : list token) (references : list (list token))
      (weights : list R) (bp : R) :
  brevity_penalty (List.map lower candidate)
                  (List.map (List.map lower) references) = Ok bp ->
  compute candidate references weights
  = Ok (bp * exp (log_sum (precision (List.map lower candidate)
                             (List.map (List.map lower) references))
                          weights))%R.
Proof.
  intro Hbp. unfold compute. rewrite Hbp. cbn [bind].
  rewrite for_weight_sum. cbn [bind].
  unfold log_sum, nonzero_orders. do 3 f_equal. lra.
Qed.

(** The sum reads the weights of the non-zero orders only. *)
Lemma log_sum_ext (p : nat -> Q) (weights weights' : list R) :
  length weights' = length weights ->
  (forall i, 1 <= i <= length weights -> ~ (p i == 0)%Q ->
             nth (i - 1) weights' 0%R = nth (i - 1) weights 0%R) ->
  log_sum p weights' = log_sum p weights.
Proof.
  intros Hlen Hsame. unfold log_sum, nonzero_orders. rewrite Hlen.
  f_equal. apply map_ext_in. intros i Hi.
  apply filter_In in Hi. destruct Hi as [Hi Hnz]. apply in_seq in Hi.
  apply negb_true_iff, Qeq_bool_neq in Hnz.
  rewrite Hsame; [reflexivity | lia | exact Hnz].
Qed.

End Compute.

(** C3. For a non-empty candidate, non-empty references and any weights,
    [compute] returns [bp * exp s]: [bp] is the brevity penalty of the
    lower-cased inputs and [s] the sum of [weights[i-1] * ln p_i] over
    exactly the orders [i] in [1 .. len weights] whose modified precision
    [p_i] is not zero.  An order with [p_i = 0] adds nothing to [s] and
    does not bear on the score: its weight can be changed at will. *)
Theorem compute_value
        (order : HashOrder) (case : CaseMapping) (candidate : list token)
        (references : list (list token)) (weights : list R) :
  candidate <> [] -> references <> [] ->
  let candidate' := List.map lower candidate in
  let references' := List.map (List.map lower) references in
  exists (bp : R) (p : nat -> Q),
    brevity_penalty candidate' references' = Ok bp
    /\ (forall i, modified_precision candidate' references' i = Ok (p i))
    /\ compute candidate references weights
       = Ok (bp * exp (fold_right Rplus 0
                         (List.map (fun i => nth (i - 1) weights 0 * ln (Q2R (p i)))
                            (filter (fun i => negb (Qeq_bool (p i) 0))
                                    (seq 1 (length weights))))))%R
    /\ (forall weights' : list R,
           length weights' = length weights ->
           (forall i, 1 <= i <= length weights -> ~ (p i == 0)%Q ->
                      nth (i - 1) weights' 0%R = nth (i - 1) weights 0%R) ->
           compute candidate references weights'
           = compute candidate references weights).
Proof.
  intros Hc Hrefs candidate' references'.
  destruct (@brevity_penalty_positive candidate' references')
    as (bp & Hbp & Hpos).
  { subst candidate'. destruct candidate; [congruence|discriminate]. }
  { subst references'. destruct references; [congruence|discriminate]. }
  exists bp, (precision candidate' references').
  split; [exact Hbp|]. split; [intro i; apply modified_precision_total|].
  split; [now apply compute_eq|].
  intros weights' Hlen Hsame.
  rewrite (compute_eq candidate references weights' Hbp).
  rewrite (compute_eq candidate references weights Hbp).
  do 3 f_equal. now apply log_sum_ext.
Qed.

Lemma compute_value_witness :
  exists (bp : R) (p : nat -> Q),
    brevity_penalty (List.map (@lower ascii_case) ["A"; "b"])
                    (List.map (List.map (@lower ascii_case)) [["a"]])
    = Ok bp
    /\ (forall i, modified_precision (order := last_seen)
                    (List.map (@lower ascii_case) ["A"; "b"])
                    (List.map (List.map (@lower ascii_case)) [["a"]]) i = Ok (p i))
    /\ compute (order := last_seen) (case := ascii_case) ["A"; "b"] [["a"]]
               [1; 2; 3]%R
       = Ok (bp * exp (fold_right Rplus 0
                         (List.map (fun i => nth (i - 1) [1; 2; 3] 0
                                             * ln (Q2R (p i)))
                            (filter (fun i => negb (Qeq_bool (p i) 0))
                                    (seq 1 (length [1; 2; 3]%R))))))%R
    /\ (forall weights' : list R,
           length weights' = length [1; 2; 3]%R ->
           (forall i, 1 <= i <= length [1; 2; 3]%R -> ~ (p i == 0)%Q ->
                      nth (i - 1) weights' 0%R = nth (i - 1) [1; 2; 3]%R 0%R) ->
           compute (order := last_seen) (case := ascii_case) ["A"; "b"] [["a"]]
                   weights'
           = compute (order := last_seen) (case := ascii_case) ["A"; "b"] [["a"]]
                     [1; 2; 3]%R).
Proof.
  apply (@compute_value last_seen ascii_case ["A"; "b"] [["a"]] [1; 2; 3]%R);
    discriminate.
Defined.

(** ** Letter case *)

Lemma lower_upper_char (ch : ascii) : lower_char (upper_char ch) = lower_char ch.
Proof. destruct ch as [[] [] [] [] [] [] [] []]; reflexivity. Qed.

Lemma lower_lower_char (ch : ascii) : lower_char (lower_char ch) = lower_char ch.
Proof. destruct ch as [[] [] [] [] [] [] [] []]; reflexivity. Qed.

Lemma is_ascii_upper_char (ch : ascii) :
  is_ascii_char (upper_char ch) = is_ascii_char ch.
Proof. destruct ch as [[] [] [] [] [] [] [] []]; reflexivity. Qed.

Lemma is_ascii_lower_char (ch : ascii) :
  is_ascii_char (lower_char ch) = is_ascii_char ch.
Proof. destruct ch as [[] [] [] [] [] [] [] []]; reflexivity. Qed.

Lemma ascii_lower_upper (t : token) : ascii_lower (ascii_upper t) = ascii_lower t.
Proof.
  induction t as [|ch t IH]; simpl; [reflexivity|].
  now rewrite lower_upper_char, IH.
Qed.

Lemma ascii_lower_lower (t : token) : ascii_lower (ascii_lower t) = ascii_lower t.
Proof.
  induction t as [|ch t IH]; simpl; [reflexivity|].
  now rewrite lower_lower_char, IH.
Qed.

Lemma is_ascii_upper (t : token) : is_ascii (ascii_upper t) = is_ascii t.
Proof.
  induction t as [|ch t IH]; simpl; [reflexivity|].
  now rewrite is_ascii_upper_char, IH.
Qed.

Lemma is_ascii_lower (t : token) : is_ascii (ascii_lower t) = is_ascii t.
Proof.
  induction t as [|ch t IH]; simpl; [reflexivity|].
  now rewrite is_ascii_lower_char, IH.
Qed.

Section CaseFacts.

Context {case : CaseMapping}.

(** On an ASCII token, upper-casing or lower-casing first is not seen
    after [lower]. *)
Lemma lower_upper_ascii (t : token) :
  is_ascii t = true -> lower (upper t) = lower t.
Proof.
  intro H. rewrite (upper_ascii t H).
  rewrite !lower_ascii; [apply ascii_lower_upper | exact H |].
  now rewrite is_ascii_upper.
Qed.

Lemma lower_lower_ascii (t : token) :
  is_ascii t = true -> lower (lower t) = lower t.
Proof.
  intro H. rewrite (lower_ascii t H).
  rewrite lower_ascii; [apply ascii_lower_lower|].
  now rewrite is_ascii_lower.
Qed.

(** A change of case [f] that [lower] undoes on the tokens at hand
    disappears under [lower]. *)
Lemma map_lower_case_change (f : token -> token) (s : list token) :
  (forall t, In t s -> lower (f t) = lower t) ->
  List.map lower (List.map f s) = List.map lower s.
Proof.
  intro Hf. rewrite map_map. apply map_ext_in. exact Hf.
Qed.

Lemma map_map_lower_case_change (f : token -> token) (refs : list (list token)) :
  (forall r t, In r refs -> In t r -> lower (f t) = lower t) ->
  List.map (List.map lower) (List.map (List.map f) refs)
  = List.map (List.map lower) refs.
Proof.
  intro Hf. rewrite map_map. apply map_ext_in.
  intros r Hr. apply map_lower_case_change. intros t Ht. now apply (Hf r).
Qed.

End CaseFacts.

(** Rewrites with an equation [precision c r i = q], up to the unfolding
    of [token]. *)
Ltac rewrite_precision H :=
  match type of H with
  | @precision ?o ?c ?r ?i = _ =>
      repeat match goal with
             | |- context [@precision o ?c' ?r' i] =>
                 progress change (@precision o c' r' i) with (@precision o c r i)
             end;
      rewrite H
  end.

(** Evaluates [lower] and [upper] on the ASCII tokens of the goal. *)
Ltac eval_case :=
  cbn [List.map];
  repeat (rewrite lower_ascii by reflexivity
          || rewrite upper_ascii by reflexivity);
  repeat match goal with
         | |- context [ascii_lower ?s] =>
             let v := eval vm_compute in (ascii_lower s) in
             change (ascii_lower s) with v
         | |- context [ascii_upper ?s] =>
             let v := eval vm_compute in (ascii_upper s) in
             change (ascii_upper s) with v
         end.

(** [compute] sees its inputs through [lower] only. *)
Lemma compute_case_change (order : HashOrder) (case : CaseMapping)
      (f : token -> token) (candidate : list token)
      (references : list (list token)) (weights : list R) :
  (forall t, In t candidate -> lower (f t) = lower t) ->
  (forall r t, In r references -> In t r -> lower (f t) = lower t) ->
  compute (List.map f candidate) (List.map (List.map f) references) weights
  = compute candidate references weights.
Proof.
  intros Hc Hr. unfold compute.
  now rewrite map_lower_case_change, map_map_lower_case_change.
Qed.

(** [compute] returns a score as soon as the candidate and the references
    are not empty. *)
Lemma compute_returns (order : HashOrder) (case : CaseMapping) (candidate : list token)
      (references : list (list token)) (weights : list R) :
  candidate <> [] -> references <> [] ->
  exists score, compute candidate references weights = Ok score.
Proof.
  intros Hc Hrefs.
  destruct (@brevity_penalty_positive (List.map lower candidate)
              (List.map (List.map lower) references))
    as (bp & Hbp & _).
  { destruct candidate; [congruence|discriminate]. }
  { destruct references; [congruence|discriminate]. }
  eexists. apply compute_eq. exact Hbp.
Qed.

(** C7, as the code has it.  For token sequences [A] (not empty) and [B]
    made of ASCII tokens, and any weights, [compute (upper A) [upper B] w]
    and [compute (lower A) [lower B] w] return the same score. *)
Theorem compute_case_invariant
        (order : HashOrder) (case : CaseMapping) (A B : list token) (w : list R) :
  A <> [] ->
  Forall (fun t => is_ascii t = true) A ->
  Forall (fun t => is_ascii t = true) B ->
  exists score,
    compute (List.map upper A) [List.map upper B] w = Ok score
    /\ compute (List.map lower A) [List.map lower B] w = Ok score.
Proof.
  intros HA HasciiA HasciiB.
  destruct (@compute_returns order case A [B] w HA) as (score & Hs); [discriminate|].
  rewrite Forall_forall in HasciiA, HasciiB.
  exists score. split.
  - rewrite <- Hs. apply (@compute_case_change order case upper A [B] w).
    + intros t Ht. apply lower_upper_ascii, HasciiA, Ht.
    + intros r t [<-|[]] Ht. apply lower_upper_ascii, HasciiB, Ht.
  - rewrite <- Hs. apply (@compute_case_change order case lower A [B] w).
    + intros t Ht. apply lower_lower_ascii, HasciiA, Ht.
    + intros r t [<-|[]] Ht. apply lower_lower_ascii, HasciiB, Ht.
Qed.

Lemma compute_case_invariant_witness :
  exists score,
    compute (order := last_seen) (case := ascii_case)
            (List.map (@upper ascii_case) ["It"; "is"])
            [List.map (@upper ascii_case) ["it"; "Is"; "a"]] [1; 1]%R = Ok score
    /\ compute (order := last_seen) (case := ascii_case)
               (List.map (@lower ascii_case) ["It"; "is"])
               [List.map (@lower ascii_case) ["it"; "Is"; "a"]] [1; 1]%R = Ok score.
Proof.
  apply (@compute_case_invariant last_seen ascii_case ["It"; "is"]
           ["it"; "Is"; "a"] [1; 1]%R);
    [discriminate | repeat constructor | repeat constructor].
Defined.

(** ** Small sets *)

Section SmallSets.

Context {order : HashOrder}.

(** A list that repeats one n-gram has a one-element set. *)
Lemma set_iter_constant (l : list ngram) (w : ngram) :
  In w l -> (forall x, In x l -> x = w) -> set_iter l = [w].
Proof.
  intros Hw Hall.
  pose proof (@set_iter_NoDup order l) as Hnd.
  pose proof (@set_iter_In order l) as Hin.
  destruct (set_iter l) as [|x [|y rest]].
  - exfalso. apply (proj2 (Hin w) Hw).
  - f_equal. apply Hall, Hin. now left.
  - exfalso. inversion Hnd as [|? ? Hnot _]. apply Hnot.
    assert (Ex : x = w) by (apply Hall, Hin; now left).
    assert (Ey : y = w) by (apply Hall, Hin; right; now left).
    rewrite Ex, <- Ey. now left.
Qed.

Lemma set_iter_singleton (w : ngram) : set_iter [w] = [w].
Proof.
  apply set_iter_constant; [now left|].
  intros x [E|[]]. now symmetry.
Qed.

Lemma length_set_iter_NoDup (l : list ngram) :
  NoDup l -> length (set_iter l) = length l.
Proof.
  intro H. apply Nat.le_antisymm; [apply length_set_iter_le|].
  apply NoDup_incl_length; [exact H|].
  intros w. apply set_iter_In.
Qed.

(** When the set has one element, every entry of the list is that one. *)
Lemma count_single_distinct (l : list ngram) :
  length (set_iter l) = 1 ->
  count l (last (set_iter l) []) = len l.
Proof.
  intro H1. pose proof (@set_iter_In order l) as Hin.
  destruct (set_iter l) as [|w [|y rest]]; try discriminate.
  cbn [last]. unfold count, len. f_equal.
  assert (Hall : forall x, In x l -> x = w).
  { intros x Hx. apply Hin in Hx. destruct Hx as [E|[]]. now symmetry. }
  clear Hin H1. induction l as [|a l IH]; [reflexivity|].
  simpl. destruct (ngram_eq_dec a w) as [_|Hne].
  - f_equal. apply IH. intros x Hx. apply Hall. now right.
  - exfalso. apply Hne, Hall. now left.
Qed.

End SmallSets.

(** ** Case and the exposed [modified_precision] *)

(** [modified_precision] compares the tokens as they are given: a
    lower-case candidate against an upper-case reference scores 1/2, and 1
    once both are upper-cased.  This holds in every iteration order. *)
Lemma modified_precision_case_sensitive :
  (forall order : HashOrder,
      modified_precision ["a"] [["A"]] 1 = Ok (inject_Z 1 / inject_Z 2)%Q)
  /\ (forall (order : HashOrder) (case : CaseMapping),
         modified_precision (List.map upper ["a"]) (List.map (List.map upper) [["A"]]) 1
         = Ok (inject_Z 2 / inject_Z 2)%Q)
  /\ ~ (inject_Z 1 / inject_Z 2 == inject_Z 2 / inject_Z 2)%Q.
Proof.
  split; [|split].
  - intro order. rewrite modified_precision_eq by (simpl; lia).
    unfold last_visited, distinct_ngrams.
    change (ngrams ["a"] 1) with [["a"]]. rewrite set_iter_singleton.
    reflexivity.
  - intros order case. cbn [List.map].
    rewrite !upper_ascii by reflexivity.
    change (ascii_upper "a") with "A". change (ascii_upper "A") with "A".
    rewrite modified_precision_eq by (simpl; lia).
    unfold last_visited, distinct_ngrams.
    change (ngrams ["A"] 1) with [["A"]].
    rewrite set_iter_singleton.
    reflexivity.
  - intro H. vm_compute in H. discriminate.
Qed.

(** A candidate of exactly [n] tokens has one n-gram, itself. *)
Lemma ngrams_whole (candidate : list token) (n : nat) :
  length candidate = n -> ngrams candidate n = [candidate].
Proof.
  intro H. unfold ngrams. rewrite H.
  replace (n + 1 - n) with 1 by lia. cbn [seq List.map skipn].
  now rewrite <- H, firstn_all.
Qed.

(** C6, as the code has it.  [modified_precision] does no case folding: it
    counts a candidate n-gram in a reference only where the tokens are
    equal as given.  For a candidate of exactly [n] tokens and non-empty
    references it returns [2 / (n + 1)] when the candidate occurs in some
    reference, token for token, and [1 / (n + 1)] when it does not, also
    when a reference holds it in another case.  The comparison is
    case-insensitive in [compute], which lower-cases first: two calls whose
    candidates and references have the same lower-casing return the same
    result. *)
Theorem modified_precision_exact_tokens
        (order : HashOrder) (case : CaseMapping) (candidate : list token)
        (references : list (list token)) (n : nat) :
  1 <= n -> length candidate = n -> references <> [] ->
  ((exists r, In r references /\ In candidate (ngrams r n)) ->
   modified_precision candidate references n
   = Ok (inject_Z 2 / inject_Z (len candidate + 1))%Q)
  /\ ((forall r, In r references -> ~ In candidate (ngrams r n)) ->
      modified_precision candidate references n
      = Ok (inject_Z 1 / inject_Z (len candidate + 1))%Q)
  /\ (forall (c c' : list token) (refs refs' : list (list token))
             (weights : list R),
         List.map lower c = List.map lower c' ->
         List.map (List.map lower) refs = List.map (List.map lower) refs' ->
         compute c refs weights = compute c' refs' weights).
Proof.
  intros Hn1 Hlen Hrefs.
  assert (Heq : forall m : Z,
             max_ref_count references n candidate = m ->
             modified_precision candidate references n
             = Ok (inject_Z (Z.min 2 m) / inject_Z (len candidate + 1))%Q).
  { intros m Hm. rewrite modified_precision_eq by lia.
    unfold last_visited, distinct_ngrams, candidate_count.
    rewrite (ngrams_whole candidate Hlen), set_iter_singleton. cbn [last].
    rewrite Hm. unfold count, len at 2.
    rewrite count_occ_cons_eq by reflexivity. reflexivity. }
  pose proof (max_ref_count_pos n candidate Hrefs) as Hpos.
  split; [|split].
  - intros (r & Hr & Hin).
    pose proof (@max_ref_count_ge references n candidate r Hr) as Hge.
    pose proof (count_In _ _ Hin) as Hc.
    rewrite (Heq _ eq_refl). do 3 f_equal. lia.
  - intro Hnone.
    assert (Hle : (max_ref_count references n candidate <= 1)%Z).
    { apply max_ref_count_le; [lia|]. intros r Hr. unfold count.
      rewrite (proj1 (count_occ_not_In ngram_eq_dec _ _)); [simpl; lia|].
      now apply Hnone. }
    rewrite (Heq _ eq_refl). do 3 f_equal. lia.
  - intros c c' refs refs' weights Hc Hr. unfold compute. now rewrite Hc, Hr.
Qed.

Lemma modified_precision_exact_tokens_witness :
  ((exists r, In r [["The"; "Cat"]; ["a"; "Cat"]]
              /\ In ["the"; "cat"] (ngrams r 2)) ->
   modified_precision (order := last_seen) ["the"; "cat"]
                      [["The"; "Cat"]; ["a"; "Cat"]] 2
   = Ok (inject_Z 2 / inject_Z (len ["the"; "cat"] + 1))%Q)
  /\ ((forall r, In r [["The"; "Cat"]; ["a"; "Cat"]]
                 -> ~ In ["the"; "cat"] (ngrams r 2)) ->
      modified_precision (order := last_seen) ["the"; "cat"]
                         [["The"; "Cat"]; ["a"; "Cat"]] 2
      = Ok (inject_Z 1 / inject_Z (len ["the"; "cat"] + 1))%Q)
  /\ (forall (c c' : list token) (refs refs' : list (list token))
             (weights : list R),
         List.map (@lower ascii_case) c = List.map (@lower ascii_case) c' ->
         List.map (List.map (@lower ascii_case)) refs
         = List.map (List.map (@lower ascii_case)) refs' ->
         compute (order := last_seen) (case := ascii_case) c refs weights
         = compute (order := last_seen) (case := ascii_case) c' refs' weights).
Proof.
  apply (@modified_precision_exact_tokens last_seen ascii_case ["the"; "cat"]
           [["The"; "Cat"]; ["a"; "Cat"]] 2);
    [lia | reflexivity | discriminate].
Defined.

(** ** Sharp s *)

(** One token against one token: the unigram precision is 2/2 when the
    two are equal and 1/2 when they are not. *)
Lemma precision_one_token_pair (order : HashOrder) (a b : token) :
  precision [a] [[b]] 1
  = if string_dec a b then (inject_Z 2 / inject_Z 2)%Q
    else (inject_Z 1 / inject_Z 2)%Q.
Proof.
  unfold precision. rewrite modified_precision_eq by (simpl; lia).
  unfold last_visited, distinct_ngrams, candidate_count, max_ref_count.
  cbn [List.map fold_right].
  change (ngrams [a] 1) with [[a]]. change (ngrams [b] 1) with [[b]].
  rewrite set_iter_singleton. cbn [last].
  unfold count, len. rewrite count_occ_cons_eq by reflexivity.
  destruct (string_dec a b) as [E|Hne].
  - rewrite E, count_occ_cons_eq by reflexivity. reflexivity.
  - rewrite count_occ_cons_neq by congruence. reflexivity.
Qed.

(** With the single weight 1, the score is 1 when the two tokens are equal
    after lower-casing and 1/2 when they are not. *)
Lemma compute_one_token_pair (order : HashOrder) (case : CaseMapping)
      (t t' : token) :
  compute [t] [[t']] [1%R]
  = Ok (if string_dec (lower t) (lower t') then 1 else / 2)%R.
Proof.
  rewrite (@compute_eq order case [t] [[t']] [1%R] 1%R) by reflexivity.
  cbn [List.map].
  pose proof (precision_one_token_pair order (lower t) (lower t')) as Hp.
  unfold log_sum, nonzero_orders. cbn [length seq filter]. rewrite Hp.
  destruct (string_dec (lower t) (lower t')) as [E|Hne].
  - change (Qeq_bool (inject_Z 2 / inject_Z 2) 0) with false.
    cbn [negb List.map fold_right Nat.sub nth]. rewrite Hp.
    rewrite Q2R_true_div by discriminate. f_equal.
    replace (2 / 2)%R with 1%R by lra.
    rewrite ln_1, Rmult_0_r, Rplus_0_l, exp_0. lra.
  - change (Qeq_bool (inject_Z 1 / inject_Z 2) 0) with false.
    cbn [negb List.map fold_right Nat.sub nth]. rewrite Hp.
    rewrite Q2R_true_div by discriminate. f_equal.
    replace (1 * ln (1 / 2) + 0)%R with (ln (1 / 2)) by lra.
    rewrite exp_ln by lra. lra.
Qed.

(** The candidate sharp s against the reference "ss".  Upper-cased, both
    are "SS" and the score is 1; lower-cased, they stay different and the
    score is 1/2.  This holds in every iteration order and for every case
    mapping that treats sharp s as Python does. *)
Lemma compute_case_sharp_s :
  (forall (order : HashOrder) (case : CaseMapping),
      compute (List.map upper [sharp_s]) [List.map upper ["ss"]] [1%R]
      = Ok 1%R)
  /\ (forall (order : HashOrder) (case : CaseMapping),
         compute (List.map lower [sharp_s]) [List.map lower ["ss"]] [1%R]
         = Ok (/ 2)%R)
  /\ (1 <> / 2)%R.
Proof.
  split; [|split; [|lra]].
  - intros order case. cbn [List.map]. rewrite compute_one_token_pair.
    rewrite upper_sharp_s, (upper_ascii "ss") by reflexivity.
    change (ascii_upper "ss") with "SS".
    destruct (string_dec (lower "SS") (lower "SS")); [reflexivity|congruence].
  - intros order case. cbn [List.map]. rewrite compute_one_token_pair.
    rewrite !lower_sharp_s, !(lower_ascii "ss") by reflexivity.
    change (ascii_lower "ss") with "ss".
    destruct (string_dec sharp_s "ss") as [E|_]; [discriminate E|reflexivity].
Qed.

(** ** A candidate scored against itself *)

Lemma Qdiv_inject_eq_1 (a b : Z) :
  (0 < b)%Z -> (inject_Z a / inject_Z b == 1)%Q <-> a = b.
Proof.
  intro Hb. destruct b as [|p|p]; try lia.
  unfold Qeq, Qdiv, Qmult, Qinv, inject_Z. simpl. lia.
Qed.

Lemma brevity_penalty_self (A : list token) :
  A <> [] -> brevity_penalty A [A] = Ok 1%R.
Proof.
  intro HA. unfold brevity_penalty. cbn [List.map Py.min fold_left bind].
  rewrite Z.sub_diag. cbn [Z.abs].
  destruct (Z.gtb_spec (len A) 0) as [_|H]; [reflexivity|].
  exfalso. unfold len in H. destruct A; [congruence|simpl in H; lia].
Qed.

Lemma max_ref_count_self (A : list token) (n : nat) (w : ngram) :
  max_ref_count [A] n w = candidate_count A n w.
Proof.
  unfold max_ref_count, candidate_count. cbn [List.map fold_right].
  pose proof (count_le_length (ngrams A n) w). lia.
Qed.

(** The precision of order [n] of [A] against itself, and when it is 1. *)
Lemma modified_precision_self (order : HashOrder) (A : list token) (n : nat) :
  1 <= n <= length A ->
  let k := count (ngrams A n) (last_visited A n) in
  let D := len (distinct_ngrams A n) in
  modified_precision A [A] n = Ok (inject_Z (k + 1) / inject_Z (len A + D))%Q
  /\ ((inject_Z (k + 1) / inject_Z (len A + D) == 1)%Q <-> n = 1 /\ D = 1%Z).
Proof.
  intros [Hn1 Hn] k D. split.
  - rewrite modified_precision_eq by exact Hn.
    rewrite max_ref_count_self, Z.min_id. reflexivity.
  - assert (Hne : ngrams A n <> []) by (rewrite ngrams_nil_iff; lia).
    pose proof (length_set_iter_pos Hne) as HD.
    pose proof (count_le_length (ngrams A n) (last_visited A n)) as Hk.
    fold k in Hk. unfold len in Hk. rewrite length_ngrams in Hk.
    rewrite Qdiv_inject_eq_1 by (unfold D, distinct_ngrams, len; lia).
    subst D. unfold distinct_ngrams, len in *. split.
    + intro E. split; lia.
    + intros [-> HD1].
      assert (H1 : length (set_iter (ngrams A 1)) = 1) by lia.
      pose proof (count_single_distinct _ H1) as Hc.
      fold (distinct_ngrams A 1) in Hc. fold (last_visited A 1) in Hc.
      fold k in Hc. unfold len in Hc. rewrite length_ngrams in Hc. lia.
Qed.

(** C2, as the code has it.  For a non-empty [A] the brevity penalty of
    [compute A [A] weights] is 1 and the clip against the single reference
    never bites, so the precision of each order [n <= len A] is
    [(k + 1) / (len A + D)], [k] being the count of the n-gram visited last
    and [D] the number of distinct n-grams.  That is 1 exactly when [n = 1]
    and [A] repeats one token; the score is [exp] of the weighted sum of the
    logarithms, not 1 in general. *)
Theorem compute_self
        (order : HashOrder) (case : CaseMapping) (A : list token) (weights : list R) :
  A <> [] ->
  let A' := List.map lower A in
  brevity_penalty A' [A'] = Ok 1%R
  /\ (forall n, 1 <= n <= length A ->
        let k := count (ngrams A' n) (last_visited A' n) in
        let D := len (distinct_ngrams A' n) in
        modified_precision A' [A'] n
        = Ok (inject_Z (k + 1) / inject_Z (len A' + D))%Q
        /\ ((inject_Z (k + 1) / inject_Z (len A' + D) == 1)%Q
            <-> n = 1 /\ D = 1%Z))
  /\ compute A [A] weights = Ok (exp (log_sum (precision A' [A']) weights)).
Proof.
  intros HA A'.
  assert (HA' : A' <> []) by (subst A'; destruct A; [congruence|discriminate]).
  split; [now apply brevity_penalty_self|]. split.
  - intros n Hn. apply modified_precision_self.
    subst A'. now rewrite length_map.
  - rewrite (@compute_eq order case A [A] weights 1%R).
    + f_equal. apply Rmult_1_l.
    + now apply brevity_penalty_self.
Qed.

Lemma compute_self_witness :
  brevity_penalty (List.map (@lower ascii_case) ["A"; "b"]) [List.map (@lower ascii_case) ["A"; "b"]] = Ok 1%R
  /\ (forall n, 1 <= n <= length ["A"; "b"] ->
        let k := count (ngrams (List.map (@lower ascii_case) ["A"; "b"]) n)
                       (last_visited (order := last_seen)
                                     (List.map (@lower ascii_case) ["A"; "b"]) n) in
        let D := len (distinct_ngrams (order := last_seen)
                                      (List.map (@lower ascii_case) ["A"; "b"]) n) in
        modified_precision (order := last_seen) (List.map (@lower ascii_case) ["A"; "b"])
                           [List.map (@lower ascii_case) ["A"; "b"]] n
        = Ok (inject_Z (k + 1) / inject_Z (len (List.map (@lower ascii_case) ["A"; "b"]) + D))%Q
        /\ ((inject_Z (k + 1) / inject_Z (len (List.map (@lower ascii_case) ["A"; "b"]) + D)
             == 1)%Q
            <-> n = 1 /\ D = 1%Z))
  /\ compute (order := last_seen) (case := ascii_case) ["A"; "b"] [["A"; "b"]] [1%R]
     = Ok (exp (log_sum (precision (order := last_seen)
                           (List.map (@lower ascii_case) ["A"; "b"])
                           [List.map (@lower ascii_case) ["A"; "b"]]) [1%R])).
Proof.
  apply (@compute_self last_seen ascii_case ["A"; "b"] [1%R]). discriminate.
Defined.

(** Two different tokens scored against themselves with the single weight
    1: the unigram precision is 2/4 in every iteration order, and the score
    is 1/2.  One token repeated twice, with all the weight on the bigrams:
    there is one distinct n-gram at each order, the bigram precision is
    2/3, and so is the score. *)
Lemma compute_self_not_one :
  (forall order : HashOrder,
      modified_precision ["a"; "b"] [["a"; "b"]] 1
      = Ok (inject_Z 2 / inject_Z 4)%Q)
  /\ (forall (order : HashOrder) (case : CaseMapping),
         compute ["a"; "b"] [["a"; "b"]] [1%R] = Ok (/ 2)%R)
  /\ (forall order : HashOrder,
         modified_precision ["a"; "a"] [["a"; "a"]] 2
         = Ok (inject_Z 2 / inject_Z 3)%Q)
  /\ (forall (order : HashOrder) (case : CaseMapping),
         compute ["a"; "a"] [["a"; "a"]] [0; 1]%R = Ok (2 / 3)%R)
  /\ (/ 2 <> 1)%R /\ (2 / 3 <> 1)%R.
Proof.
  assert (Hp : forall order : HashOrder,
             modified_precision ["a"; "b"] [["a"; "b"]] 1
             = Ok (inject_Z 2 / inject_Z 4)%Q).
  { intro order.
    assert (H12 : 1 <= 1 <= length ["a"; "b"]) by (simpl; lia).
    pose proof (@modified_precision_self order ["a"; "b"] 1 H12) as Hself.
    cbv zeta in Hself. destruct Hself as [Hself _].
    etransitivity; [exact Hself|]. clear Hself.
    pose proof (@last_visited_In order ["a"; "b"] 1) as Hin.
    unfold distinct_ngrams, len.
    rewrite length_set_iter_NoDup
      by (repeat constructor; simpl; intuition discriminate).
    destruct Hin as [<-|[<-|[]]]; [simpl; lia| |]; reflexivity. }
  assert (Hq1 : forall order : HashOrder,
             modified_precision ["a"; "a"] [["a"; "a"]] 1
             = Ok (inject_Z 3 / inject_Z 3)%Q).
  { intro order. rewrite modified_precision_eq by (simpl; lia).
    unfold last_visited, distinct_ngrams.
    change (ngrams ["a"; "a"] 1) with [["a"]; ["a"]].
    rewrite (@set_iter_constant order [["a"]; ["a"]] ["a"]);
      [reflexivity | now left | intros x [E|[E|[]]]; now symmetry]. }
  assert (Hq2 : forall order : HashOrder,
             modified_precision ["a"; "a"] [["a"; "a"]] 2
             = Ok (inject_Z 2 / inject_Z 3)%Q).
  { intro order. rewrite modified_precision_eq by (simpl; lia).
    unfold last_visited, distinct_ngrams.
    change (ngrams ["a"; "a"] 2) with [["a"; "a"]].
    rewrite set_iter_singleton. reflexivity. }
  split; [exact Hp|]. split; [|split; [exact Hq2|split; [|lra]]].
  - intros order case.
    rewrite (@compute_eq order case ["a"; "b"] [["a"; "b"]] [1%R] 1%R)
      by (apply brevity_penalty_self; discriminate).
    eval_case.
    assert (Hprec : precision ["a"; "b"] [["a"; "b"]] 1
                    = (inject_Z 2 / inject_Z 4)%Q)
      by (unfold precision; now rewrite Hp).
    unfold log_sum, nonzero_orders.
    cbn [length seq filter]. rewrite_precision Hprec.
    change (Qeq_bool (inject_Z 2 / inject_Z 4) 0) with false.
    cbn [negb List.map fold_right Nat.sub nth]. rewrite_precision Hprec.
    rewrite Q2R_true_div by discriminate.
    f_equal.
    replace (1 * ln (2 / 4) + 0)%R with (ln (2 / 4)) by lra.
    rewrite exp_ln by lra. lra.
  - intros order case.
    rewrite (@compute_eq order case ["a"; "a"] [["a"; "a"]] [0; 1]%R 1%R)
      by (apply brevity_penalty_self; discriminate).
    eval_case.
    assert (Hprec1 : precision ["a"; "a"] [["a"; "a"]] 1
                     = (inject_Z 3 / inject_Z 3)%Q)
      by (unfold precision; now rewrite Hq1).
    assert (Hprec2 : precision ["a"; "a"] [["a"; "a"]] 2
                     = (inject_Z 2 / inject_Z 3)%Q)
      by (unfold precision; now rewrite Hq2).
    unfold log_sum, nonzero_orders.
    cbn [length seq filter]. rewrite_precision Hprec1. rewrite_precision Hprec2.
    change (Qeq_bool (inject_Z 3 / inject_Z 3) 0) with false.
    change (Qeq_bool (inject_Z 2 / inject_Z 3) 0) with false.
    cbn [negb List.map fold_right Nat.sub nth].
    rewrite_precision Hprec1. rewrite_precision Hprec2.
    rewrite !Q2R_true_div by discriminate.
    f_equal.
    replace (0 * ln (3 / 3) + (1 * ln (2 / 3) + 0))%R with (ln (2 / 3)) by lra.
    rewrite exp_ln by lra. lra.
Qed.

(** * Further properties of the three methods *)

(** ** Quotients of integers *)

Lemma Qdiv_inject_nonneg (a b : Z) :
  (0 <= a)%Z -> (0 < b)%Z -> (0 <= inject_Z a / inject_Z b)%Q.
Proof.
  intros Ha Hb. apply Qle_shift_div_l.
  - rewrite <- (Zlt_Qlt 0). exact Hb.
  - rewrite Qmult_0_l, <- (Zle_Qle 0). exact Ha.
Qed.

Lemma Qdiv_inject_le_1 (a b : Z) :
  (a <= b)%Z -> (0 < b)%Z -> (inject_Z a / inject_Z b <= 1)%Q.
Proof.
  intros Hab Hb. apply Qle_shift_div_r.
  - rewrite <- (Zlt_Qlt 0). exact Hb.
  - rewrite Qmult_1_l, <- Zle_Qle. exact Hab.
Qed.

Lemma Qdiv_inject_le (a a' b : Z) :
  (a <= a')%Z -> (0 < b)%Z ->
  (inject_Z a / inject_Z b <= inject_Z a' / inject_Z b)%Q.
Proof.
  intros Ha Hb. unfold Qdiv. apply Qmult_le_compat_r.
  - rewrite <- Zle_Qle. exact Ha.
  - apply Qinv_le_0_compat. rewrite <- (Zle_Qle 0). lia.
Qed.

Lemma Qdiv_inject_eq_0 (a b : Z) :
  (0 < b)%Z -> (inject_Z a / inject_Z b == 0)%Q <-> a = 0%Z.
Proof.
  intro Hb. destruct b as [|p|p]; try lia.
  unfold Qeq, Qdiv, Qmult, Qinv, inject_Z. simpl. lia.
Qed.

Section MorePrecision.

Context {order : HashOrder}.

Lemma modified_precision_short (candidate : list token)
      (references : list (list token)) (n : nat) :
  length candidate < n -> modified_precision candidate references n = Ok 0%Q.
Proof.
  intro H. unfold modified_precision.
  apply ngrams_nil_iff in H. now rewrite H.
Qed.

(** The references enter the precision through [max_ref_count] only. *)
Lemma modified_precision_refs_ext (candidate : list token)
      (refs refs' : list (list token)) (n : nat) :
  max_ref_count refs n (last_visited candidate n)
  = max_ref_count refs' n (last_visited candidate n) ->
  modified_precision candidate refs n = modified_precision candidate refs' n.
Proof.
  intro H. destruct (le_lt_dec n (length candidate)) as [Hn|Hn].
  - now rewrite !modified_precision_eq, H.
  - now rewrite !modified_precision_short.
Qed.

(** What the numerator and the denominator are made of, for an order that
    the candidate can form. *)
Lemma precision_parts (candidate : list token) (n : nat) :
  1 <= n -> n <= length candidate ->
  (2 <= candidate_count candidate n (last_visited candidate n)
   <= len candidate - Z.of_nat n + 2)%Z
  /\ (1 <= len (distinct_ngrams candidate n))%Z.
Proof.
  intros Hn1 Hn.
  pose proof (count_In _ _ (last_visited_In candidate Hn)) as Hc1.
  pose proof (count_le_length (ngrams candidate n) (last_visited candidate n))
    as Hc2.
  assert (HD : 1 <= length (set_iter (ngrams candidate n))).
  { apply length_set_iter_pos. rewrite ngrams_nil_iff. lia. }
  unfold len in Hc2. rewrite length_ngrams in Hc2.
  unfold candidate_count, distinct_ngrams, len. lia.
Qed.

Lemma precision_unit_interval (candidate : list token)
      (references : list (list token)) (n : nat) :
  1 <= n -> (0 <= precision candidate references n <= 1)%Q.
Proof.
  intro Hn1. unfold precision.
  destruct (le_lt_dec n (length candidate)) as [Hn|Hn].
  - rewrite modified_precision_eq by exact Hn.
    destruct (precision_parts candidate Hn1 Hn) as [Hc HD].
    pose proof (max_ref_count_nonneg references n (last_visited candidate n)).
    unfold len in *. split.
    + apply Qdiv_inject_nonneg; lia.
    + apply Qdiv_inject_le_1; lia.
  - rewrite modified_precision_short by exact Hn.
    split; [apply Qle_refl|discriminate].
Qed.

End MorePrecision.

(** X1. For every order [n >= 1], every candidate and every collection of
    references (empty ones included), [modified_precision] raises nothing
    and returns a value between 0 and 1. *)
Theorem modified_precision_unit_interval
        (order : HashOrder) (candidate : list token)
        (references : list (list token)) (n : nat) :
  1 <= n ->
  exists p, modified_precision candidate references n = Ok p
            /\ (0 <= p <= 1)%Q.
Proof.
  intro Hn1. exists (precision candidate references n).
  split; [apply modified_precision_total|].
  now apply precision_unit_interval.
Qed.

Lemma modified_precision_unit_interval_witness :
  exists p, modified_precision (order := last_seen) ["a"; "b"; "a"] [] 2 = Ok p
            /\ (0 <= p <= 1)%Q.
Proof.
  apply (@modified_precision_unit_interval last_seen ["a"; "b"; "a"] [] 2). lia.
Defined.

(** X2. For an order [n >= 1] the precision returned is zero exactly when
    the candidate has fewer than [n] tokens or there is no reference: these
    are the orders that [compute] leaves out of its sum. *)
Theorem modified_precision_zero_iff
        (order : HashOrder) (candidate : list token)
        (references : list (list token)) (n : nat) :
  1 <= n ->
  exists p, modified_precision candidate references n = Ok p
            /\ ((p == 0)%Q <-> length candidate < n \/ references = []).
Proof.
  intro Hn1. destruct (le_lt_dec n (length candidate)) as [Hn|Hn].
  - rewrite modified_precision_eq by exact Hn. eexists. split; [reflexivity|].
    destruct (precision_parts candidate Hn1 Hn) as [Hc HD].
    rewrite Qdiv_inject_eq_0 by (unfold len in *; lia).
    destruct references as [|r rs].
    + split; [now right|]. intros _. unfold max_ref_count. simpl. lia.
    + assert (Hne : r :: rs <> []) by discriminate.
      pose proof (max_ref_count_pos n (last_visited candidate n) Hne).
      split; [lia|]. intros [H'|H']; [lia|congruence].
  - rewrite modified_precision_short by exact Hn. exists 0%Q.
    split; [reflexivity|]. split; [now left|reflexivity].
Qed.

Lemma modified_precision_zero_iff_witness :
  exists p, modified_precision (order := last_seen) ["a"; "b"] [["a"]] 3 = Ok p
            /\ ((p == 0)%Q <-> length ["a"; "b"] < 3 \/ [["a"]] = []).
Proof.
  apply (@modified_precision_zero_iff last_seen ["a"; "b"] [["a"]] 3). lia.
Defined.

(** X3. When no n-gram of the candidate occurs in any reference, the
    precision is not 0 but [1 / (len candidate + D)], [D] the number of
    distinct candidate n-grams, whatever the iteration order: every count
    carries its [+ 1]. *)
Theorem modified_precision_no_overlap
        (order : HashOrder) (candidate : list token)
        (references : list (list token)) (n : nat) :
  1 <= n -> n <= length candidate -> references <> [] ->
  (forall w r, In w (ngrams candidate n) -> In r references ->
               ~ In w (ngrams r n)) ->
  modified_precision candidate references n
  = Ok (inject_Z 1 / inject_Z (len candidate + len (set_iter (ngrams candidate n))))%Q.
Proof.
  intros Hn1 Hn Hrefs Hdisj.
  rewrite modified_precision_eq by exact Hn.
  destruct (precision_parts candidate Hn1 Hn) as [Hc _].
  pose proof (max_ref_count_pos n (last_visited candidate n) Hrefs) as Hlo.
  assert (Hhi : (max_ref_count references n (last_visited candidate n) <= 1)%Z).
  { apply max_ref_count_le; [lia|]. intros r Hr.
    unfold count.
    rewrite (proj1 (count_occ_not_In ngram_eq_dec _ _)); [simpl; lia|].
    apply Hdisj; [now apply last_visited_In|exact Hr]. }
  replace (Z.min (candidate_count candidate n (last_visited candidate n))
                 (max_ref_count references n (last_visited candidate n)))
    with 1%Z by lia.
  reflexivity.
Qed.

Lemma modified_precision_no_overlap_witness :
  modified_precision (order := last_seen) ["a"; "b"] [["c"]] 1
  = Ok (inject_Z 1 / inject_Z 4)%Q.
Proof.
  apply (@modified_precision_no_overlap last_seen ["a"; "b"] [["c"]] 1);
    [simpl; lia | simpl; lia | discriminate |].
  intros w r [<-|[<-|[]]] [<-|[]] [H|[]]; discriminate.
Defined.

(** X4. The precision depends on the references as a set only: two
    collections with the same members, in any order and with any
    repetitions, give the same value. *)
Theorem modified_precision_same_references
        (order : HashOrder) (candidate : list token)
        (refs refs' : list (list token)) (n : nat) :
  incl refs refs' -> incl refs' refs ->
  modified_precision candidate refs n = modified_precision candidate refs' n.
Proof.
  intros H1 H2. apply modified_precision_refs_ext.
  apply Z.le_antisymm; now apply max_ref_count_incl.
Qed.

Lemma modified_precision_same_references_witness :
  modified_precision (order := last_seen) ["a"; "b"] [["a"]; ["b"; "b"]] 1
  = modified_precision (order := last_seen) ["a"; "b"]
                       [["b"; "b"]; ["a"]; ["b"; "b"]] 1.
Proof.
  apply (@modified_precision_same_references last_seen ["a"; "b"]
           [["a"]; ["b"; "b"]] [["b"; "b"]; ["a"]; ["b"; "b"]] 1);
    intros r Hr; simpl in *; tauto.
Defined.

(** X5. More references never lower the precision: when every reference of
    [refs] is among [refs'], the value for [refs] is at most the value for
    [refs']. *)
Theorem modified_precision_more_references
        (order : HashOrder) (candidate : list token)
        (refs refs' : list (list token)) (n : nat) :
  incl refs refs' ->
  exists p p',
    modified_precision candidate refs n = Ok p
    /\ modified_precision candidate refs' n = Ok p'
    /\ (p <= p')%Q.
Proof.
  intro Hincl. destruct (le_lt_dec n (length candidate)) as [Hn|Hn].
  - rewrite !modified_precision_eq by exact Hn.
    do 2 eexists. split; [reflexivity|]. split; [reflexivity|].
    assert (Hne : ngrams candidate n <> []) by (rewrite ngrams_nil_iff; lia).
    pose proof (length_set_iter_pos Hne) as HD.
    pose proof (max_ref_count_incl n (last_visited candidate n) Hincl).
    apply Qdiv_inject_le; [lia|].
    unfold distinct_ngrams, len. lia.
  - rewrite !modified_precision_short by exact Hn.
    exists 0%Q, 0%Q. repeat split. apply Qle_refl.
Qed.

Lemma modified_precision_more_references_witness :
  exists p p',
    modified_precision (order := last_seen) ["a"; "a"] [["b"]] 1 = Ok p
    /\ modified_precision (order := last_seen) ["a"; "a"] [["a"; "a"]; ["b"]] 1
       = Ok p'
    /\ (p <= p')%Q.
Proof.
  apply (@modified_precision_more_references last_seen ["a"; "a"]
           [["b"]] [["a"; "a"]; ["b"]] 1).
  intros r Hr. simpl in *. tauto.
Defined.

(** ** The penalty as a function of the least distance *)

Lemma exp_le (x y : R) : (x <= y)%R -> (exp x <= exp y)%R.
Proof.
  intros [H | ->]; [|lra]. apply exp_increasing in H. lra.
Qed.

Lemma IZR_div_le (a b c : Z) :
  (0 < c)%Z -> (a <= b)%Z -> (IZR a / IZR c <= IZR b / IZR c)%R.
Proof.
  intros Hc Hab. unfold Rdiv. apply Rmult_le_compat_r.
  - left. apply Rinv_0_lt_compat. now apply (IZR_lt 0).
  - now apply IZR_le.
Qed.

Lemma IZR_div_same (c : Z) : (0 < c)%Z -> (IZR c / IZR c = 1)%R.
Proof.
  intro Hc. apply (IZR_lt 0) in Hc. unfold Rdiv. apply Rinv_r. lra.
Qed.

Lemma penalty_branch_le_1 (c r : Z) :
  (0 < c)%Z ->
  ((if (c >? r)%Z then 1 else exp (1 - IZR r / IZR c)) <= 1)%R.
Proof.
  intro Hc. destruct (Z.gtb_spec c r) as [_|Hle]; [lra|].
  apply exp_nonpos_le_1.
  pose proof (IZR_div_le Hc Hle) as H. rewrite IZR_div_same in H by exact Hc.
  lra.
Qed.

Lemma penalty_branch_antitone (c r r' : Z) :
  (0 < c)%Z -> (r' <= r)%Z ->
  ((if (c >? r)%Z then 1 else exp (1 - IZR r / IZR c))
   <= (if (c >? r')%Z then 1 else exp (1 - IZR r' / IZR c)))%R.
Proof.
  intros Hc Hr.
  destruct (Z.gtb_spec c r') as [_|Hle'].
  - now apply penalty_branch_le_1.
  - destruct (Z.gtb_spec c r) as [Hgt|_]; [lia|].
    apply exp_le. pose proof (IZR_div_le Hc Hr). lra.
Qed.

Lemma in_length_distances (candidate : list token)
      (references : list (list token)) (d : Z) :
  In d (length_distances candidate references)
  <-> exists ref, In ref references /\ d = Z.abs (len ref - len candidate).
Proof.
  unfold length_distances. rewrite in_map_iff.
  split; intros (ref & H1 & H2); exists ref; [now split|now split].
Qed.

(** The penalty lies in (0, 1]. *)
Lemma brevity_penalty_unit
      (candidate : list token) (references : list (list token)) :
  candidate <> [] -> references <> [] ->
  exists bp, brevity_penalty candidate references = Ok bp /\ (0 < bp <= 1)%R.
Proof.
  intros Hc Hrefs.
  destruct (min_nonempty (length_distances_nonempty candidate Hrefs))
    as (r & Hmin & _).
  rewrite (brevity_penalty_branch references Hc Hmin).
  eexists. split; [reflexivity|]. split.
  - destruct (len candidate >? r)%Z; [lra|apply exp_pos].
  - apply penalty_branch_le_1, len_pos, Hc.
Qed.

(** X6. For a non-empty candidate of length [c] and non-empty references,
    the penalty is exactly 1 if and only if some reference has at most
    [2 * c] tokens: a candidate is penalised only when every reference is
    more than twice as long. *)
Theorem brevity_penalty_one_iff
        (candidate : list token) (references : list (list token)) :
  candidate <> [] -> references <> [] ->
  exists v, brevity_penalty candidate references = Ok v
            /\ (v = 1%R <-> exists ref, In ref references
                                        /\ (len ref <= 2 * len candidate)%Z).
Proof.
  intros Hc Hrefs.
  destruct (min_nonempty (length_distances_nonempty candidate Hrefs))
    as (r & Hmin & Hin & Hleast).
  rewrite (brevity_penalty_branch references Hc Hmin).
  eexists. split; [reflexivity|].
  pose proof (len_pos Hc) as Hcpos.
  apply in_length_distances in Hin. destruct Hin as (ref0 & Hin0 & Hr0).
  destruct (Z.gtb_spec (len candidate) r) as [Hgt|Hle].
  - split; [|reflexivity]. intros _. exists ref0. split; [exact Hin0|lia].
  - split.
    + intro E0.
      assert (E : (1 - IZR r / IZR (len candidate) = 0)%R)
        by (apply exp_inv; rewrite exp_0; exact E0).
      assert (E' : IZR r = IZR (len candidate)).
      { pose proof (IZR_div_same Hcpos) as H1.
        apply (IZR_lt 0) in Hcpos.
        apply (Rmult_eq_reg_r (/ IZR (len candidate)));
          [|apply Rinv_neq_0_compat; lra].
        unfold Rdiv in *. lra. }
      apply eq_IZR in E'. exists ref0. split; [exact Hin0|lia].
    + intros (ref & Href & Hlen).
      assert (Hd : In (Z.abs (len ref - len candidate))
                      (length_distances candidate references)).
      { apply in_length_distances. now exists ref. }
      apply Hleast in Hd.
      assert (Hlen0 : (0 <= len ref)%Z) by (unfold len; lia).
      assert (E : r = len candidate) by lia.
      rewrite E, IZR_div_same by exact Hcpos.
      replace (1 - 1)%R with 0%R by lra. apply exp_0.
Qed.

Lemma brevity_penalty_one_iff_witness :
  exists v, brevity_penalty ["a"; "b"] [["a"; "b"; "c"; "d"; "e"]; ["a"; "b"; "c"]]
            = Ok v
            /\ (v = 1%R
                <-> exists ref,
                   In ref [["a"; "b"; "c"; "d"; "e"]; ["a"; "b"; "c"]]
                   /\ (len ref <= 2 * len ["a"; "b"])%Z).
Proof.
  apply (@brevity_penalty_one_iff ["a"; "b"]
           [["a"; "b"; "c"; "d"; "e"]; ["a"; "b"; "c"]]); discriminate.
Defined.

(** X7. When every reference has more than [2 * c] tokens, the penalty is
    [exp (2 - m / c)], [m] being the length of a shortest reference, and it
    is below 1. *)
Theorem brevity_penalty_long_references
        (candidate : list token) (references : list (list token)) :
  candidate <> [] -> references <> [] ->
  (forall ref, In ref references -> (2 * len candidate < len ref)%Z) ->
  exists m : Z,
    (exists ref, In ref references /\ m = len ref)
    /\ (forall ref, In ref references -> (m <= len ref)%Z)
    /\ brevity_penalty candidate references
       = Ok (exp (2 - IZR m / IZR (len candidate)))
    /\ (exp (2 - IZR m / IZR (len candidate)) < 1)%R.
Proof.
  intros Hc Hrefs Hlong.
  destruct (min_nonempty (length_distances_nonempty candidate Hrefs))
    as (r & Hmin & Hin & Hleast).
  pose proof (len_pos Hc) as Hcpos.
  apply in_length_distances in Hin. destruct Hin as (ref0 & Hin0 & Hr0).
  pose proof (Hlong ref0 Hin0) as H0.
  exists (len ref0).
  assert (Hval : (1 - IZR r / IZR (len candidate)
                  = 2 - IZR (len ref0) / IZR (len candidate))%R).
  { replace r with (len ref0 - len candidate)%Z by lia.
    rewrite minus_IZR. pose proof (IZR_div_same Hcpos) as H1.
    unfold Rdiv in *. lra. }
  split; [now exists ref0|]. split; [|split].
  - intros ref Href.
    assert (Hd : In (Z.abs (len ref - len candidate))
                    (length_distances candidate references)).
    { apply in_length_distances. now exists ref. }
    apply Hleast in Hd. pose proof (Hlong ref Href). lia.
  - rewrite (brevity_penalty_branch references Hc Hmin).
    destruct (Z.gtb_spec (len candidate) r) as [Hgt|_]; [lia|].
    now rewrite Hval.
  - rewrite <- exp_0. apply exp_increasing.
    assert (Hlt : (2 * len candidate < len ref0)%Z) by exact H0.
    apply IZR_lt in Hlt. rewrite mult_IZR in Hlt.
    apply (IZR_lt 0) in Hcpos.
    assert (H2 : (2 < IZR (len ref0) / IZR (len candidate))%R).
    { unfold Rdiv. apply (Rmult_lt_reg_r (IZR (len candidate))); [exact Hcpos|].
      rewrite Rmult_assoc, Rinv_l by lra. lra. }
    lra.
Qed.

Lemma brevity_penalty_long_references_witness :
  exists m : Z,
    (exists ref, In ref [["a"; "b"; "c"; "d"]; ["a"; "b"; "c"]] /\ m = len ref)
    /\ (forall ref, In ref [["a"; "b"; "c"; "d"]; ["a"; "b"; "c"]]
                    -> (m <= len ref)%Z)
    /\ brevity_penalty ["a"] [["a"; "b"; "c"; "d"]; ["a"; "b"; "c"]]
       = Ok (exp (2 - IZR m / IZR (len ["a"])))
    /\ (exp (2 - IZR m / IZR (len ["a"])) < 1)%R.
Proof.
  apply (@brevity_penalty_long_references ["a"]
           [["a"; "b"; "c"; "d"]; ["a"; "b"; "c"]]); try discriminate.
  intros ref [<-|[<-|[]]]; vm_compute; reflexivity.
Defined.

(** X8. More references never lower the penalty value: when every
    reference of [refs] is among [refs'], the value for [refs] is at most
    the value for [refs']. *)
Theorem brevity_penalty_more_references
        (candidate : list token) (refs refs' : list (list token)) :
  candidate <> [] -> refs <> [] -> incl refs refs' ->
  exists v v',
    brevity_penalty candidate refs = Ok v
    /\ brevity_penalty candidate refs' = Ok v'
    /\ (v <= v')%R.
Proof.
  intros Hc Hrefs Hincl.
  assert (Hrefs' : refs' <> []).
  { destruct refs as [|x xs]; [congruence|]. intro E.
    specialize (Hincl x (or_introl eq_refl)). now rewrite E in Hincl. }
  destruct (min_nonempty (length_distances_nonempty candidate Hrefs))
    as (r & Hmin & Hin & _).
  destruct (min_nonempty (length_distances_nonempty candidate Hrefs'))
    as (r' & Hmin' & _ & Hleast').
  rewrite (brevity_penalty_branch refs Hc Hmin).
  rewrite (brevity_penalty_branch refs' Hc Hmin').
  do 2 eexists. split; [reflexivity|]. split; [reflexivity|].
  apply penalty_branch_antitone; [now apply len_pos|].
  apply Hleast'. apply in_length_distances in Hin.
  destruct Hin as (ref & Href & ->).
  apply in_length_distances. exists ref. split; [now apply Hincl|reflexivity].
Qed.

Lemma brevity_penalty_more_references_witness :
  exists v v',
    brevity_penalty ["a"] [["a"; "b"; "c"; "d"]] = Ok v
    /\ brevity_penalty ["a"] [["a"; "b"; "c"]; ["a"; "b"; "c"; "d"]] = Ok v'
    /\ (v <= v')%R.
Proof.
  apply (@brevity_penalty_more_references ["a"] [["a"; "b"; "c"; "d"]]
           [["a"; "b"; "c"]; ["a"; "b"; "c"; "d"]]); try discriminate.
  intros r Hr. simpl in *. tauto.
Defined.

(** ** The loop over the weights *)

Lemma min_same_members (l l' : list Z) :
  (forall d, In d l <-> In d l') -> Py.min l = Py.min l'.
Proof.
  intro H. destruct l as [|x xs], l' as [|y ys]; [reflexivity| | |].
  - exfalso. apply (proj2 (H y)). now left.
  - exfalso. apply (proj1 (H x)). now left.
  - destruct (@min_nonempty (x :: xs)) as (r & Hr & Hin & Hleast);
      [discriminate|].
    destruct (@min_nonempty (y :: ys)) as (r' & Hr' & Hin' & Hleast');
      [discriminate|].
    rewrite Hr, Hr'. f_equal. apply Z.le_antisymm.
    + apply Hleast, H, Hin'.
    + apply Hleast', H, Hin.
Qed.

Lemma brevity_penalty_same_members (candidate : list token)
      (refs refs' : list (list token)) :
  incl refs refs' -> incl refs' refs ->
  brevity_penalty candidate refs = brevity_penalty candidate refs'.
Proof.
  intros H1 H2. unfold brevity_penalty.
  fold (length_distances candidate refs) (length_distances candidate refs').
  rewrite (@min_same_members (length_distances candidate refs)
                             (length_distances candidate refs'));
    [reflexivity|].
  intro d. rewrite !in_length_distances.
  split; intros (ref & Href & E); exists ref; split; auto.
Qed.

Section MoreCompute.

Context {order : HashOrder} {case : CaseMapping}.

Lemma for_weight_ext (candidate : list token) (refs refs' : list (list token))
      (weights : list R) (s : R) (i : nat) :
  (forall j, modified_precision candidate refs j
             = modified_precision candidate refs' j) ->
  for_weight candidate refs weights s i = for_weight candidate refs' weights s i.
Proof.
  intro H. revert s i. induction weights as [|weight rest IH]; intros s i.
  - reflexivity.
  - cbn [for_weight]. rewrite H.
    destruct (modified_precision candidate refs' i); cbn [bind];
      [apply IH|reflexivity].
Qed.

(** Past the length of the candidate every precision is 0 and the sum is
    left as it is. *)
Lemma for_weight_beyond (candidate : list token) (references : list (list token))
      (weights : list R) (s : R) (i : nat) :
  length candidate < i ->
  for_weight candidate references weights s i = Ok s.
Proof.
  revert s i. induction weights as [|weight rest IH]; intros s i Hi.
  - reflexivity.
  - cbn [for_weight]. rewrite modified_precision_short by exact Hi.
    cbn [bind]. change (Qeq_bool 0 0) with true. cbv zeta.
    apply IH. lia.
Qed.

Lemma for_weight_app (candidate : list token) (references : list (list token))
      (w w' : list R) (s : R) (i : nat) :
  for_weight candidate references (w ++ w') s i
  = (s' <- for_weight candidate references w s i ;;
     for_weight candidate references w' s' (i + length w)).
Proof.
  revert s i. induction w as [|weight rest IH]; intros s i.
  - cbn [app for_weight bind length]. now rewrite Nat.add_0_r.
  - cbn [app for_weight length].
    destruct (modified_precision candidate references i); cbn [bind];
      [|reflexivity].
    rewrite IH. now rewrite Nat.add_succ_comm.
Qed.

(** A sum of terms [weight * ln p] with [weight >= 0] and [p] in (0, 1]. *)
Lemma log_sum_nonpos (p : nat -> Q) (weights : list R) :
  (forall i, 1 <= i -> (0 <= p i <= 1)%Q) ->
  Forall (fun x => (0 <= x)%R) weights ->
  (log_sum p weights <= 0)%R.
Proof.
  intros Hp Hw. unfold log_sum, nonzero_orders.
  assert (Hall : forall i,
             In i (filter (fun i => negb (Qeq_bool (p i) 0))
                          (seq 1 (length weights))) ->
             (nth (i - 1) weights 0 * ln (Q2R (p i)) <= 0)%R).
  { intros i Hi. apply filter_In in Hi. destruct Hi as [Hi Hnz].
    apply in_seq in Hi.
    assert (Hwi : (0 <= nth (i - 1) weights 0)%R).
    { apply (proj1 (Forall_nth _ weights) Hw). lia. }
    destruct (Hp i) as [H0 H1]; [lia|].
    assert (Hpos : (0 < p i)%Q).
    { apply Qle_lteq in H0. destruct H0 as [H0|H0]; [exact H0|].
      exfalso. apply negb_true_iff in Hnz.
      apply Qeq_bool_neq in Hnz. apply Hnz. now symmetry. }
    apply Qlt_Rlt in Hpos. apply Qle_Rle in H1.
    rewrite RMicromega.Q2R_0 in Hpos. rewrite RMicromega.Q2R_1 in H1.
    assert (Hln : (ln (Q2R (p i)) <= 0)%R).
    { rewrite <- ln_1. destruct H1 as [H1|H1].
      - left. now apply ln_increasing.
      - rewrite H1. lra. }
    nra. }
  induction (filter (fun i => negb (Qeq_bool (p i) 0)) (seq 1 (length weights)))
    as [|i l IH]; cbn [List.map fold_right]; [lra|].
  assert (H1 := Hall i (or_introl eq_refl)).
  assert (H2 : (fold_right Rplus 0
                  (List.map (fun i => nth (i - 1) weights 0 * ln (Q2R (p i))) l)
                <= 0)%R).
  { apply IH. intros j Hj. apply Hall. now right. }
  lra.
Qed.

End MoreCompute.

(** X9. The score depends on the references as a set only: two
    collections with the same members, in any order and with any
    repetitions, give the same result of [compute] (the same score or the
    same exception). *)
Theorem compute_same_references
        (order : HashOrder) (case : CaseMapping) (candidate : list token)
        (refs refs' : list (list token)) (weights : list R) :
  incl refs refs' -> incl refs' refs ->
  compute candidate refs weights = compute candidate refs' weights.
Proof.
  intros H1 H2. unfold compute.
  apply (incl_map (List.map lower)) in H1.
  apply (incl_map (List.map lower)) in H2.
  rewrite (brevity_penalty_same_members (List.map lower candidate) H1 H2).
  destruct (brevity_penalty (List.map lower candidate)
                            (List.map (List.map lower) refs')); cbn [bind];
    [|reflexivity].
  rewrite (@for_weight_ext order (List.map lower candidate)
             (List.map (List.map lower) refs) (List.map (List.map lower) refs'));
    [reflexivity|].
  intro j. apply modified_precision_refs_ext.
  apply Z.le_antisymm; now apply max_ref_count_incl.
Qed.

Lemma compute_same_references_witness :
  compute (order := last_seen) (case := ascii_case) ["a"; "b"] [["a"]; ["b"; "b"]] [1%R]
  = compute (order := last_seen) (case := ascii_case) ["a"; "b"] [["b"; "b"]; ["a"]; ["b"; "b"]] [1%R].
Proof.
  apply (@compute_same_references last_seen ascii_case ["a"; "b"]
           [["a"]; ["b"; "b"]] [["b"; "b"]; ["a"]; ["b"; "b"]] [1%R]);
    intros r Hr; simpl in *; tauto.
Defined.

(** X10. Weights of orders beyond the length of the candidate are ignored:
    once there are at least [len candidate] weights, further ones do not
    change the result. *)
Theorem compute_excess_weights
        (order : HashOrder) (case : CaseMapping) (candidate : list token)
        (references : list (list token)) (w w' : list R) :
  length candidate <= length w ->
  compute candidate references (w ++ w') = compute candidate references w.
Proof.
  intro Hlen. unfold compute.
  destruct (brevity_penalty (List.map lower candidate)
                            (List.map (List.map lower) references));
    cbn [bind]; [|reflexivity].
  rewrite for_weight_app, for_weight_sum. cbn [bind].
  rewrite for_weight_beyond; [reflexivity|].
  rewrite length_map. unfold token in *. lia.
Qed.

Lemma compute_excess_weights_witness :
  compute (order := last_seen) (case := ascii_case) ["a"; "b"] [["a"; "b"; "c"]]
          ([1; 2]%R ++ [3; 4]%R)%list
  = compute (order := last_seen) (case := ascii_case) ["a"; "b"] [["a"; "b"; "c"]] [1; 2]%R.
Proof.
  apply (@compute_excess_weights last_seen ascii_case ["a"; "b"] [["a"; "b"; "c"]]
           [1; 2]%R [3; 4]%R).
  simpl. lia.
Defined.

(** X11. With a non-empty candidate, non-empty references and weights that
    are not negative, [compute] returns a score that is not negative and at
    most the brevity penalty, itself at most 1. *)
Theorem compute_unit_interval
        (order : HashOrder) (case : CaseMapping) (candidate : list token)
        (references : list (list token)) (weights : list R) :
  candidate <> [] -> references <> [] ->
  Forall (fun x => (0 <= x)%R) weights ->
  exists bp score,
    brevity_penalty (List.map lower candidate)
                    (List.map (List.map lower) references) = Ok bp
    /\ compute candidate references weights = Ok score
    /\ (0 <= score <= bp)%R /\ (bp <= 1)%R.
Proof.
  intros Hc Hrefs Hw.
  destruct (@brevity_penalty_unit (List.map lower candidate)
              (List.map (List.map lower) references))
    as (bp & Hbp & Hbp0 & Hbp1).
  { destruct candidate; [congruence|discriminate]. }
  { destruct references; [congruence|discriminate]. }
  rewrite (compute_eq candidate references weights Hbp).
  exists bp. eexists. split; [exact Hbp|]. split; [reflexivity|].
  set (s := log_sum _ weights).
  assert (Hs : (s <= 0)%R).
  { apply log_sum_nonpos; [|exact Hw].
    intros i Hi. now apply precision_unit_interval. }
  pose proof (exp_pos s) as He0.
  pose proof (exp_nonpos_le_1 Hs) as He1.
  repeat split; nra.
Qed.

Lemma compute_unit_interval_witness :
  exists bp score,
    brevity_penalty (List.map (@lower ascii_case) ["a"; "b"])
                    (List.map (List.map (@lower ascii_case)) [["a"; "c"]]) = Ok bp
    /\ compute (order := last_seen) (case := ascii_case) ["a"; "b"] [["a"; "c"]] [0.5; 0.5]%R
       = Ok score
    /\ (0 <= score <= bp)%R /\ (bp <= 1)%R.
Proof.
  apply (@compute_unit_interval last_seen ascii_case ["a"; "b"] [["a"; "c"]] [0.5; 0.5]%R);
    try discriminate.
  repeat constructor; lra.
Defined.

(** X12. A candidate of one token scored against a single reference made of
    that token, up to case, gets exactly 1, for every weight vector. *)
Theorem compute_single_token
        (order : HashOrder) (case : CaseMapping) (t t' : token) (weights : list R) :
  lower t = lower t' ->
  compute [t] [[t']] weights = Ok 1%R.
Proof.
  intro Ht. unfold compute. cbn [List.map]. rewrite <- Ht.
  rewrite brevity_penalty_self by discriminate. cbn [bind].
  destruct weights as [|weight rest].
  - cbn [for_weight bind]. f_equal. rewrite exp_0. lra.
  - cbn [for_weight].
    assert (Hp : modified_precision [lower t] [[lower t]] 1
                 = Ok (inject_Z 2 / inject_Z 2)%Q).
    { rewrite modified_precision_eq by (simpl; lia).
      rewrite max_ref_count_self, Z.min_id.
      unfold candidate_count, last_visited, distinct_ngrams.
      change (ngrams [lower t] 1) with [[lower t]].
      rewrite set_iter_singleton. cbn [last]. unfold count, len.
      rewrite count_occ_cons_eq by reflexivity. reflexivity. }
    rewrite Hp. cbn [bind].
    change (Qeq_bool (inject_Z 2 / inject_Z 2) 0) with false. cbv zeta.
    rewrite for_weight_beyond by (simpl; lia). cbn [bind].
    rewrite Q2R_true_div by discriminate. f_equal.
    replace (2 / 2)%R with 1%R by lra.
    rewrite ln_1, Rmult_0_r, Rplus_0_l, exp_0. lra.
Qed.

Lemma compute_single_token_witness :
  compute (order := last_seen) (case := ascii_case) ["Party"] [["party"]] [0.25; 0.25; 0.25; 0.25]%R
  = Ok 1%R.
Proof.
  apply (@compute_single_token last_seen ascii_case "Party" "party"
           [0.25; 0.25; 0.25; 0.25]%R).
  reflexivity.
Defined.

(** X13. When every weight is 0, and in particular when there is no weight,
    [compute] returns what [brevity_penalty] returns on the lower-cased
    inputs: its value, or its exception. *)
Theorem compute_zero_weights
        (order : HashOrder) (case : CaseMapping) (candidate : list token)
        (references : list (list token)) (weights : list R) :
  Forall (fun x => x = 0%R) weights ->
  compute candidate references weights
  = brevity_penalty (List.map lower candidate)
                    (List.map (List.map lower) references).
Proof.
  intro Hw.
  destruct (brevity_penalty (List.map lower candidate)
                            (List.map (List.map lower) references))
    as [bp|e] eqn:Hbp.
  - rewrite (compute_eq candidate references weights Hbp). f_equal.
    assert (Hs : log_sum (precision (List.map lower candidate)
                            (List.map (List.map lower) references)) weights
                 = 0%R).
    { unfold log_sum.
      induction (nonzero_orders
                   (precision (List.map lower candidate)
                      (List.map (List.map lower) references))
                   (length weights)) as [|i l IH];
        cbn [List.map fold_right]; [reflexivity|].
      rewrite IH.
      assert (H0 : nth (i - 1) weights 0%R = 0%R).
      { destruct (nth_in_or_default (i - 1) weights 0%R) as [Hin|E];
          [|exact E].
        exact (proj1 (Forall_forall _ weights) Hw _ Hin). }
      rewrite H0. lra. }
    rewrite Hs, exp_0. lra.
  - unfold compute. now rewrite Hbp.
Qed.

Lemma compute_zero_weights_witness :
  compute (order := last_seen) (case := ascii_case) ["a"] [["a"; "b"; "c"]] [0; 0]%R
  = brevity_penalty (List.map (@lower ascii_case) ["a"])
                    (List.map (List.map (@lower ascii_case)) [["a"; "b"; "c"]]).
Proof.
  apply (@compute_zero_weights last_seen ascii_case ["a"] [["a"; "b"; "c"]] [0; 0]%R).
  repeat constructor.
Defined.

(** For the candidate "a b a" and the reference "a a", the unigram
    precision is 3/5 when "a" is visited last and 1/5 when "b" is, and
    with the single weight 1 these are the scores. *)
Lemma order_dependent_example (case : CaseMapping) :
  modified_precision (order := last_seen) ["a"; "b"; "a"] [["a"; "a"]] 1
  = Ok (inject_Z 3 / inject_Z 5)%Q
  /\ modified_precision (order := first_seen) ["a"; "b"; "a"] [["a"; "a"]] 1
     = Ok (inject_Z 1 / inject_Z 5)%Q
  /\ compute (order := last_seen) ["a"; "b"; "a"] [["a"; "a"]] [1%R]
     = Ok (3 / 5)%R
  /\ compute (order := first_seen) ["a"; "b"; "a"] [["a"; "a"]] [1%R]
     = Ok (1 / 5)%R.
Proof.
  assert (Hbp : brevity_penalty (List.map lower ["a"; "b"; "a"])
                                (List.map (List.map lower) [["a"; "a"]])
                = Ok 1%R) by reflexivity.
  assert (Hl : precision (order := last_seen) ["a"; "b"; "a"] [["a"; "a"]] 1
               = (inject_Z 3 / inject_Z 5)%Q) by reflexivity.
  assert (Hf : precision (order := first_seen) ["a"; "b"; "a"] [["a"; "a"]] 1
               = (inject_Z 1 / inject_Z 5)%Q) by reflexivity.
  split; [reflexivity|]. split; [reflexivity|]. split.
  - rewrite (@compute_eq last_seen case _ _ [1%R] 1%R Hbp). f_equal.
    eval_case.
    unfold log_sum, nonzero_orders. cbn [length seq filter]. rewrite_precision Hl.
    change (Qeq_bool (inject_Z 3 / inject_Z 5) 0) with false.
    cbn [negb List.map fold_right Nat.sub nth]. rewrite_precision Hl.
    rewrite Q2R_true_div by discriminate.
    replace (1 * ln (3 / 5) + 0)%R with (ln (3 / 5)) by lra.
    rewrite exp_ln by lra. lra.
  - rewrite (@compute_eq first_seen case _ _ [1%R] 1%R Hbp). f_equal.
    eval_case.
    unfold log_sum, nonzero_orders. cbn [length seq filter]. rewrite_precision Hf.
    change (Qeq_bool (inject_Z 1 / inject_Z 5) 0) with false.
    cbn [negb List.map fold_right Nat.sub nth]. rewrite_precision Hf.
    rewrite Q2R_true_div by discriminate.
    replace (1 * ln (1 / 5) + 0)%R with (ln (1 / 5)) by lra.
    rewrite exp_ln by lra. lra.
Qed.

(** X14. The inputs alone do not fix the result: there are two iteration
    orders of the set of distinct n-grams, a candidate and a reference for
    which [modified_precision] returns different values, and [compute]
    different scores. *)
Theorem compute_order_dependent (case : CaseMapping) :
  exists (o1 o2 : HashOrder) (candidate reference : list token),
    (exists p1 p2,
        modified_precision (order := o1) candidate [reference] 1 = Ok p1
        /\ modified_precision (order := o2) candidate [reference] 1 = Ok p2
        /\ ~ (p1 == p2)%Q)
    /\ (exists s1 s2,
           compute (order := o1) candidate [reference] [1%R] = Ok s1
           /\ compute (order := o2) candidate [reference] [1%R] = Ok s2
           /\ s1 <> s2).
Proof.
  destruct (order_dependent_example case) as (Hp1 & Hp2 & Hs1 & Hs2).
  exists last_seen, first_seen, ["a"; "b"; "a"], ["a"; "a"]. split.
  - do 2 eexists. split; [exact Hp1|]. split; [exact Hp2|].
    intro H. vm_compute in H. discriminate.
  - do 2 eexists. split; [exact Hs1|]. split; [exact Hs2|]. lra.
Qed.
